(** * Battleship: ships, fleet generation and the automatic player

    A shallow embedding of [battleship/ship.py] and of the
    [AutomaticPlayer] class of [battleship/player.py].

    Python integers are [Z]; a cell is a pair [(x, y)]; Python sets of
    cells are [gset cell] (iterated through [elements], whose order is as
    arbitrary as Python's); a method that can fall off its end returns
    [option bool], with [None] for Python's [None]; exceptions and the
    random source are explicit. *)

From stdpp Require Import base gmap list.
From Stdlib Require Import ZArith Lia.

Open Scope Z_scope.

(** ** Cells and exceptions *)

Definition cell : Type := Z * Z.

Inductive exn : Type :=
| ValueError
| TypeError
| IndexError.

(** Python truthiness of a value that is [True], [False] or [None]. *)
Definition truthy (v : option bool) : bool :=
  match v with
  | Some b => b
  | None => false
  end.

(** [range(a, b)] *)
Definition range (a b : Z) : list Z := seqZ a (b - a).

(** The Chebyshev (chessboard) distance of two cells. *)
Definition chebyshev (a b : cell) : Z :=
  Z.max (Z.abs (a.1 - b.1)) (Z.abs (a.2 - b.2)).

(** ** [class Ship] *)

Record Ship : Type := mkShip {
  x_start : Z;
  y_start : Z;
  x_end : Z;
  y_end : Z;
  cells : gset cell;
  damaged_cells : gset cell
}.

(** The four coordinates alone decide orientation and occupied cells, so
    the methods the constructor calls take them directly. *)
Definition is_vertical_at (xs xe : Z) : bool :=
  if decide (xs = xe) then true else false.

Definition is_horizontal_at (ys ye : Z) : bool :=
  if decide (ys = ye) then true else false.

Definition is_vertical (s : Ship) : bool := is_vertical_at (x_start s) (x_end s).

Definition is_horizontal (s : Ship) : bool := is_horizontal_at (y_start s) (y_end s).

(** [get_cells]: [None] when the ship is neither horizontal nor vertical
    (the method then falls off its end). *)
Definition get_cells_at (xs ys xe ye : Z) : option (gset cell) :=
  if is_horizontal_at ys ye then
    Some (foldl (fun cells_set x_coordinate => cells_set ∪ {[ (x_coordinate, ys) ]})
                ∅ (range xs (xe + 1)))
  else if is_vertical_at xs xe then
    Some (foldl (fun cells_set y_coordinate => cells_set ∪ {[ (xs, y_coordinate) ]})
                ∅ (range ys (ye + 1)))
  else None.

Definition get_cells (s : Ship) : option (gset cell) :=
  get_cells_at (x_start s) (y_start s) (x_end s) (y_end s).

(** [Ship.__init__(start, end)]. The guard raises whenever [get_cells]
    would return [None], so the last branch is never taken
    ([Ship_init_result] below). *)
Definition Ship_init (start end_ : cell) : exn + Ship :=
  let '(x_start0, y_start0) := start in
  let '(x_end0, y_end0) := end_ in
  let xs := Z.min x_start0 x_end0 in
  let xe := Z.max x_start0 x_end0 in
  let ys := Z.min y_start0 y_end0 in
  let ye := Z.max y_start0 y_end0 in
  if negb (is_horizontal_at ys ye) && negb (is_vertical_at xs xe) then
    inl ValueError
  else
    match get_cells_at xs ys xe ye with
    | Some cs => inr (mkShip xs ys xe ye cs ∅)
    | None => inl TypeError
    end.

(** [Ship.length]; the name [length] is left to lists. *)
Definition Ship_length (s : Ship) : Z :=
  if is_horizontal s then Z.of_nat (size (cells s))
  else if is_vertical s then Z.of_nat (size (cells s))
  else 0.

(** The [for ... in range(...)] search of [is_occupying_cell]: [True] at
    the first coordinate equal to the one looked for, [False] after the
    loop. *)
Fixpoint scan_range (check : Z) (coords : list Z) : bool :=
  match coords with
  | [] => false
  | coordinate :: rest =>
      if decide (check = coordinate) then true else scan_range check rest
  end.

(** [is_occupying_cell]: [Some true], [Some false], or [None] when neither
    branch of the [if]/[elif] is taken. *)
Definition is_occupying_cell (s : Ship) (c : cell) : option bool :=
  let '(check_x, check_y) := c in
  if is_horizontal s && bool_decide (y_start s = check_y) then
    Some (scan_range check_x (range (x_start s) (x_end s + 1)))
  else if is_vertical s && bool_decide (x_start s = check_x) then
    Some (scan_range check_y (range (y_start s) (y_end s + 1)))
  else None.

(** [receive_damage]: the ship after the call and the value returned. *)
Definition receive_damage (s : Ship) (c : cell) : Ship * bool :=
  if truthy (is_occupying_cell s c) then
    (mkShip (x_start s) (y_start s) (x_end s) (y_end s) (cells s)
            (damaged_cells s ∪ {[ c ]}), true)
  else (s, false).

Definition count_damaged_cells (s : Ship) : Z := Z.of_nat (size (damaged_cells s)).

Definition has_sunk (s : Ship) : bool :=
  bool_decide (size (cells s ∖ damaged_cells s) = 0%nat).

(** The test of the loop body of [is_near_cell]. *)
Definition near_test (coordinates c : cell) : bool :=
  (bool_decide (coordinates.1 - 1 <= c.1) && bool_decide (c.1 <= coordinates.1 + 1))
  && (bool_decide (coordinates.2 - 1 <= c.2) && bool_decide (c.2 <= coordinates.2 + 1)).

(** [for coordinates in self.cells: if ...: return True] then
    [return False]. *)
Fixpoint scan_cells (c : cell) (cs : list cell) : bool :=
  match cs with
  | [] => false
  | coordinates :: rest =>
      if near_test coordinates c then true else scan_cells c rest
  end.

(** [is_near_cell] *)
Definition is_near_cell (s : Ship) (c : cell) : option bool :=
  if is_horizontal s then Some (scan_cells c (elements (cells s)))
  else if is_vertical s then Some (scan_cells c (elements (cells s)))
  else None.

(** [is_near_ship]: the loop over the other ship's cells. *)
Fixpoint scan_other (s : Ship) (cs : list cell) : bool :=
  match cs with
  | [] => false
  | c :: rest => if truthy (is_near_cell s c) then true else scan_other s rest
  end.

Definition is_near_ship (s other_ship : Ship) : bool :=
  scan_other s (elements (cells other_ship)).

(** A constructed ship: what [Ship(start, end)] returns, possibly damaged
    afterwards through [receive_damage], the only method that mutates. *)
Inductive constructed : Ship -> Prop :=
| constructed_init start end_ s :
    Ship_init start end_ = inr s -> constructed s
| constructed_damage s c :
    constructed s -> constructed (receive_damage s c).1.


(** ** Effects: state, exceptions and the random source

    A computation over a state [St] returns a value and a new state,
    raises an exception (the state as mutated so far is kept), or is still
    running when the random source has been used up. *)

Inductive result (St A : Type) : Type :=
| Ok (a : A) (s : St)
| Raised (e : exn) (s : St)
| OutOfDraws.

Arguments Ok {St A} a s.
Arguments Raised {St A} e s.
Arguments OutOfDraws {St A}.

Definition M (St A : Type) : Type := St -> result St A.

Definition ret {St A} (a : A) : M St A := fun s => Ok a s.

Definition bind {St A B} (m : M St A) (k : A -> M St B) : M St B :=
  fun s =>
    match m s with
    | Ok a s' => k a s'
    | Raised e s' => Raised e s'
    | OutOfDraws => OutOfDraws
    end.

Definition raise {St A} (e : exn) : M St A := fun s => Raised e s.

Definition get {St} : M St St := fun s => Ok s s.

Definition modify {St} (f : St -> St) : M St unit := fun s => Ok tt (f s).

Notation "x <- m ;; k" := (bind m (fun x => k))
  (at level 100, m at next level, right associativity).
Notation "m ;;; k" := (bind m (fun _ => k))
  (at level 100, right associativity).

(** The random source is a tape of raw values, one per call to the
    [random] module; each call maps its value into the range asked for. *)
Definition tape : Type := list Z.

(** [random.randrange(a, b)]: [ValueError] on an empty range, before
    anything is drawn. *)
Definition randrange (a b : Z) : M tape Z :=
  fun t =>
    if decide (b <= a) then Raised ValueError t
    else match t with
         | [] => OutOfDraws
         | r :: t' => Ok (a + r `mod` (b - a)) t'
         end.

(** [random.randint(a, b)], both ends included. *)
Definition randint (a b : Z) : M tape Z := randrange a (b + 1).

(** [random.choice(seq)] *)
Definition choice {A} (seq : list A) : M tape A :=
  fun t =>
    match seq with
    | [] => Raised IndexError t
    | d :: _ =>
        match t with
        | [] => OutOfDraws
        | r :: t' => Ok (nth (Z.to_nat (r `mod` Z.of_nat (List.length seq))) seq d) t'
        end
    end.

(** ** [class ShipFactory] *)

(** A [dict] is iterated in insertion order: [ships_per_length] is the
    list of its items, keys distinct. *)
Record ShipFactory : Type := mkShipFactory {
  board_size : Z * Z;
  ships_per_length : list (Z * Z)
}.

Definition default_ships_per_length : list (Z * Z) :=
  [(1, 1); (2, 1); (3, 1); (4, 1); (5, 1)].

(** [ShipFactory.__init__(board_size=(10,10), ships_per_length=None)] *)
Definition ShipFactory_init (board_size0 : option (Z * Z))
    (ships_per_length0 : option (list (Z * Z))) : ShipFactory :=
  mkShipFactory (default (10, 10) board_size0)
    (match ships_per_length0 with
     | None => default_ships_per_length
     | Some spl => spl
     end).

(** [for ship in ships: dummy_variable = ship.is_near_ship(new_ship);
    if dummy_variable: break], starting from [dummy_variable = False]. *)
Fixpoint near_some_ship (ships : list Ship) (new_ship : Ship) : bool :=
  match ships with
  | [] => false
  | ship :: rest =>
      if is_near_ship ship new_ship then true else near_some_ship rest new_ship
  end.

Definition lift_exn {A} (r : exn + A) : M tape A :=
  match r with
  | inl e => raise e
  | inr a => ret a
  end.

(** The [while dummy_variable] loop that places one ship of the given
    length; it returns the list [ships] with the new ship appended. Every
    iteration draws three values; [fuel] only bounds the recursion, and
    [S (length tape)] iterations can never be used up before the tape. *)
Fixpoint place_ship (fuel : nat) (width height len : Z) (ships : list Ship)
    : M tape (list Ship) :=
  match fuel with
  | O => fun _ => OutOfDraws
  | S fuel' =>
      x <- randrange 1 (width + 1) ;;
      y <- randrange 1 (height + 1) ;;
      let start_coordinate := (x, y) in
      is_horizontal_ <- choice [0; 1] ;;
      let end_coordinate :=
        if negb (bool_decide (is_horizontal_ = 0))
        then (start_coordinate.1 + len - 1, start_coordinate.2)
        else (start_coordinate.1, start_coordinate.2 + len - 1) in
      if negb ((bool_decide (width >= end_coordinate.1) && bool_decide (end_coordinate.1 > 0))
               && (bool_decide (height >= end_coordinate.2) && bool_decide (end_coordinate.2 > 0)))
      then place_ship fuel' width height len ships
      else
        new_ship <- lift_exn (Ship_init start_coordinate end_coordinate) ;;
        if negb (bool_decide (List.length ships = 0%nat)) then
          if near_some_ship ships new_ship
          then place_ship fuel' width height len ships
          else ret (ships ++ [new_ship])
        else ret (ships ++ [new_ship])
  end.

Definition place_ship_loop (width height len : Z) (ships : list Ship)
    : M tape (list Ship) :=
  fun t => place_ship (S (List.length t)) width height len ships t.

(** [for number in range(1, count + 1)] *)
Fixpoint place_ships (numbers : list Z) (width height len : Z) (ships : list Ship)
    : M tape (list Ship) :=
  match numbers with
  | [] => ret ships
  | _ :: rest =>
      ships' <- place_ship_loop width height len ships ;;
      place_ships rest width height len ships'
  end.

(** [for length in self.ships_per_length] *)
Fixpoint place_fleet (items : list (Z * Z)) (width height : Z) (ships : list Ship)
    : M tape (list Ship) :=
  match items with
  | [] => ret ships
  | (len, count) :: rest =>
      ships' <- place_ships (range 1 (count + 1)) width height len ships ;;
      place_fleet rest width height ships'
  end.

(** [ShipFactory.generate_ships] *)
Definition generate_ships (f : ShipFactory) : M tape (list Ship) :=
  let '(width, height) := board_size f in
  place_fleet (ships_per_length f) width height [].

(** ** [class AutomaticPlayer]

    [Board] is not part of these sources; the player only reads its
    [width] and [height], kept here as two fields. A target is
    [option cell] because [strategy_function] can return [None]. *)

Record AutomaticPlayer : Type := mkAutomaticPlayer {
  board_width : Z;
  board_height : Z;
  implement_strategy : bool;
  attacked_positions : list (option cell);
  previous_coordinates : option cell;
  cycle : Z;
  save_ship_initial : option cell
}.

Definition set_implement_strategy (b : bool) (p : AutomaticPlayer) : AutomaticPlayer :=
  mkAutomaticPlayer (board_width p) (board_height p) b (attacked_positions p)
    (previous_coordinates p) (cycle p) (save_ship_initial p).

Definition set_attacked_positions (l : list (option cell)) (p : AutomaticPlayer)
    : AutomaticPlayer :=
  mkAutomaticPlayer (board_width p) (board_height p) (implement_strategy p) l
    (previous_coordinates p) (cycle p) (save_ship_initial p).

Definition set_previous_coordinates (c : option cell) (p : AutomaticPlayer)
    : AutomaticPlayer :=
  mkAutomaticPlayer (board_width p) (board_height p) (implement_strategy p)
    (attacked_positions p) c (cycle p) (save_ship_initial p).

Definition set_cycle (k : Z) (p : AutomaticPlayer) : AutomaticPlayer :=
  mkAutomaticPlayer (board_width p) (board_height p) (implement_strategy p)
    (attacked_positions p) (previous_coordinates p) k (save_ship_initial p).

Definition set_save_ship_initial (c : option cell) (p : AutomaticPlayer)
    : AutomaticPlayer :=
  mkAutomaticPlayer (board_width p) (board_height p) (implement_strategy p)
    (attacked_positions p) (previous_coordinates p) (cycle p) c.

(** [AutomaticPlayer.__init__], on a board of the given size. *)
Definition AutomaticPlayer_init (width height : Z) : AutomaticPlayer :=
  mkAutomaticPlayer width height false [] None 0 None.

(** [get_random_coordinates] *)
Definition get_random_coordinates (self : AutomaticPlayer) : M tape cell :=
  x <- randint 1 (board_width self) ;;
  y <- randint 1 (board_height self) ;;
  ret (x, y).

(** [while coordinates in self.attacked_positions:
      coordinates = self.get_random_coordinates()]; [fuel] bounds the
    recursion only, as in [place_ship]. *)
Fixpoint redraw (fuel : nat) (self : AutomaticPlayer) (coordinates : cell)
    : M tape cell :=
  if bool_decide (Some coordinates ∈ attacked_positions self) then
    match fuel with
    | O => fun _ => OutOfDraws
    | S fuel' =>
        coordinates' <- get_random_coordinates self ;;
        redraw fuel' self coordinates'
    end
  else ret coordinates.

(** The [else] branch of [select_target]. *)
Definition random_target (self : AutomaticPlayer) : M tape cell :=
  fun t =>
    (coordinates <- get_random_coordinates self ;;
     redraw (List.length t) self coordinates) t.

(** Run a computation over the random source inside one over the player. *)
Definition with_tape {A} (t : tape) (m : M tape A) : M AutomaticPlayer A :=
  fun self =>
    match m t with
    | Ok a _ => Ok a self
    | Raised e _ => Raised e self
    | OutOfDraws => OutOfDraws
    end.

Definition on_board (self : AutomaticPlayer) (coordinates : cell) : bool :=
  (bool_decide (0 < coordinates.1) && bool_decide (coordinates.1 <= board_width self))
  && (bool_decide (0 < coordinates.2) && bool_decide (coordinates.2 <= board_height self)).

(** One [if self.cycle == k:] block of [strategy_function]: [Some c] is
    [return c]; [None] goes on to the next statement, the counter
    possibly changed by [next]. *)
Definition probe (k : Z) (coordinates : cell) (next : Z -> Z)
    : M AutomaticPlayer (option cell) :=
  self <- get ;;
  if bool_decide (cycle self = k) then
    if on_board self coordinates then ret (Some coordinates)
    else modify (set_cycle (next (cycle self))) ;;; ret None
  else ret None.

Definition or_else {St A} (m k : M St (option A)) : M St (option A) :=
  r <- m ;;
  match r with
  | Some a => ret (Some a)
  | None => k
  end.

(** [strategy_function]; the final [ret None] is the implicit
    [return None] at the end of the method. *)
Definition strategy_function : M AutomaticPlayer (option cell) :=
  self <- get ;;
  match previous_coordinates self with
  | None => raise TypeError
  | Some (x, y) =>
      or_else (probe 0 (x, y + 1) (fun c => c + 1))
     (or_else (probe 1 (x + 1, y) (fun c => c + 1))
     (or_else (probe 2 (x, y - 1) (fun c => c + 1))
     (or_else (probe 3 (x - 1, y) (fun _ => 0))
              (ret None))))
  end.

(** [select_target], drawing from the tape [t]. *)
Definition select_target (t : tape) : M AutomaticPlayer (option cell) :=
  self <- get ;;
  coordinates <-
    (if implement_strategy self then strategy_function
     else c <- with_tape t (random_target self) ;; ret (Some c)) ;;
  modify (set_previous_coordinates coordinates) ;;;
  modify (fun self => set_attacked_positions (attacked_positions self ++ [coordinates]) self) ;;;
  ret coordinates.

(** [receive_result(is_ship_hit, has_ship_sunk)] *)
Definition receive_result (is_ship_hit has_ship_sunk : bool) : M AutomaticPlayer unit :=
  self <- get ;;
  if is_ship_hit && negb has_ship_sunk then
    modify (set_implement_strategy true) ;;;
    match save_ship_initial self with
    | None =>
        match previous_coordinates self with
        | None => raise TypeError
        | Some p => modify (set_save_ship_initial (Some (p.1, p.2)))
        end
    | Some _ => ret tt
    end
  else if has_ship_sunk then
    modify (set_implement_strategy false) ;;;
    modify (set_cycle 0) ;;;
    modify (set_save_ship_initial None)
  else if (negb is_ship_hit && implement_strategy self) && bool_decide (cycle self < 4) then
    modify (set_cycle (cycle self + 1)) ;;;
    match save_ship_initial self with
    | None => raise TypeError
    | Some a => modify (set_previous_coordinates (Some (a.1, a.2)))
    end
  else ret tt.

(** The player after a call, whether it returned or raised. *)
Definition state_after {A} (r : result AutomaticPlayer A) : option AutomaticPlayer :=
  match r with
  | Ok _ s | Raised _ s => Some s
  | OutOfDraws => None
  end.

(** States reachable from a new player through [select_target] and
    [receive_result] calls, with any arguments and any random draws. *)
Inductive reachable : AutomaticPlayer -> Prop :=
| reachable_init width height :
    reachable (AutomaticPlayer_init width height)
| reachable_select_target s t s' :
    reachable s -> state_after (select_target t s) = Some s' -> reachable s'
| reachable_receive_result s hit sunk s' :
    reachable s -> state_after (receive_result hit sunk s) = Some s' -> reachable s'.

(** The direction probed at each value of the counter. *)
Definition direction (k : Z) : cell :=
  if decide (k = 0) then (0, 1)
  else if decide (k = 1) then (1, 0)
  else if decide (k = 2) then (0, -1)
  else (-1, 0).

Definition offset (c : cell) (k : Z) : cell :=
  (c.1 + (direction k).1, c.2 + (direction k).2).

(** [select_target] followed by the report of a miss, [n] times; the
    targets in order, stopping at the first call that does not return. *)
Fixpoint misses (n : nat) (s : AutomaticPlayer) : list (option cell) :=
  match n with
  | O => []
  | S n' =>
      match select_target [] s with
      | Ok target s1 =>
          match receive_result false false s1 with
          | Ok _ s2 => target :: misses n' s2
          | _ => [target]
          end
      | _ => []
      end
  end.

(** ** [class RandomPlayer]

    As for [AutomaticPlayer], the board is kept as its width and height;
    [tracker] is the set of the cells attacked so far. *)

Record RandomPlayer : Type := mkRandomPlayer {
  random_board_width : Z;
  random_board_height : Z;
  tracker : gset cell
}.

(** [RandomPlayer.__init__], on a board of the given size. *)
Definition RandomPlayer_init (width height : Z) : RandomPlayer :=
  mkRandomPlayer width height ∅.

(** [RandomPlayer.get_random_coordinates] *)
Definition RandomPlayer_get_random_coordinates (self : RandomPlayer) : M tape cell :=
  x <- randint 1 (random_board_width self) ;;
  y <- randint 1 (random_board_height self) ;;
  ret (x, y).

(** The [while has_been_attacked] loop of [generate_random_target], which
    starts with [has_been_attacked = True]. Every iteration draws two
    values; [fuel] bounds the recursion only. *)
Fixpoint generate_random_target_loop (fuel : nat) (self : RandomPlayer) : M tape cell :=
  match fuel with
  | O => fun _ => OutOfDraws
  | S fuel' =>
      random_cell <- RandomPlayer_get_random_coordinates self ;;
      let has_been_attacked := bool_decide (random_cell ∈ tracker self) in
      if has_been_attacked then generate_random_target_loop fuel' self
      else ret random_cell
  end.

(** [RandomPlayer.generate_random_target] *)
Definition generate_random_target (self : RandomPlayer) : M tape cell :=
  fun t => generate_random_target_loop (S (List.length t)) self t.

(** Run a computation over the random source inside one over any state. *)
Definition on_tape {St A} (t : tape) (m : M tape A) : M St A :=
  fun self =>
    match m t with
    | Ok a _ => Ok a self
    | Raised e _ => Raised e self
    | OutOfDraws => OutOfDraws
    end.

(** [RandomPlayer.select_target], drawing from the tape [t]. *)
Definition RandomPlayer_select_target (t : tape) : M RandomPlayer cell :=
  self <- get ;;
  target_cell <- on_tape t (generate_random_target self) ;;
  modify (fun self =>
            mkRandomPlayer (random_board_width self) (random_board_height self)
              (tracker self ∪ {[ target_cell ]})) ;;;
  ret target_cell.

(** [select_target] called once for each tape of the list: the targets in
    order and the player at the end, if every call returns. *)
Fixpoint RandomPlayer_targets (ts : list tape) (s : RandomPlayer)
    : option (list cell * RandomPlayer) :=
  match ts with
  | [] => Some ([], s)
  | t :: rest =>
      match RandomPlayer_select_target t s with
      | Ok c s' =>
          match RandomPlayer_targets rest s' with
          | Some (cs, s'') => Some (c :: cs, s'')
          | None => None
          end
      | _ => None
      end
  end.

(** ** Notions used in the statements and concrete inputs *)

(** The normalized endpoints of a ship built from [start] and [end_] have
    the same x (the same y). *)
Definition share_x (start end_ : cell) : Prop :=
  Z.min start.1 end_.1 = Z.max start.1 end_.1.

Definition share_y (start end_ : cell) : Prop :=
  Z.min start.2 end_.2 = Z.max start.2 end_.2.

Definition share_exactly_one_axis (start end_ : cell) : Prop :=
  (share_x start end_ /\ ~ share_y start end_) \/ (~ share_x start end_ /\ share_y start end_).

(** Some cell of [s1] is within Chebyshev distance 1 of some cell of [s2]. *)
Definition near_ships (s1 s2 : Ship) : Prop :=
  exists c1 c2, c1 ∈ cells s1 /\ c2 ∈ cells s2 /\ chebyshev c1 c2 <= 1.

(** The ship from (3,3) to (5,3), the ship from (4,1) to (4,5), and a
    one-cell ship. *)
Definition ship_3_3_5_3 : Ship :=
  mkShip 3 3 5 3 {[ (3, 3); (4, 3); (5, 3) ]} ∅.

Definition ship_4_1_4_5 : Ship :=
  mkShip 4 1 4 5 {[ (4, 1); (4, 2); (4, 3); (4, 4); (4, 5) ]} ∅.

Definition ship_3_3_3_3 : Ship :=
  mkShip 3 3 3 3 {[ (3, 3) ]} ∅.

(** What holds of every constructed ship: it is a one-cell-wide rectangle
    and [cells] is exactly that rectangle. *)
Record ship_inv (s : Ship) : Prop := {
  inv_line : y_start s = y_end s \/ x_start s = x_end s;
  inv_x : x_start s <= x_end s;
  inv_y : y_start s <= y_end s;
  inv_cells : forall c : cell,
    c ∈ cells s <-> (x_start s <= c.1 <= x_end s) /\ (y_start s <= c.2 <= y_end s);
  inv_size : Z.of_nat (size (cells s)) = (x_end s - x_start s) + (y_end s - y_start s) + 1
}.

(** The number of ships of a fleet whose [length()] is [l]. *)
Fixpoint ships_of_length (l : Z) (ships : list Ship) : nat :=
  match ships with
  | [] => 0%nat
  | s :: rest =>
      ((if decide (Ship_length s = l) then 1 else 0) + ships_of_length l rest)%nat
  end.

Fixpoint occurrences (l : Z) (ls : list Z) : nat :=
  match ls with
  | [] => 0%nat
  | a :: rest => ((if decide (a = l) then 1 else 0) + occurrences l rest)%nat
  end.

(** The number of cells of the ship placed for the key [len]: the end
    cell is [len - 1] cells away from the start cell, on either side. *)
Definition placed_length (len : Z) : Z := Z.abs (len - 1) + 1.

(** The lengths of the ships placed for the items of [ships_per_length],
    in order. *)
Definition fleet_lengths (items : list (Z * Z)) : list Z :=
  flat_map (fun item => replicate (Z.to_nat item.2) (placed_length item.1)) items.

(** All cells of a ship are on the board. *)
Definition ship_on_board (width height : Z) (s : Ship) : Prop :=
  forall c : cell, c ∈ cells s -> (1 <= c.1 <= width) /\ (1 <= c.2 <= height).

(** What the placement loops maintain of the list [ships]. *)
Record fleet_inv (width height : Z) (ships : list Ship) : Prop := {
  fleet_ships : forall s, s ∈ ships -> ship_inv s;
  fleet_on_board : forall s, s ∈ ships -> ship_on_board width height s;
  fleet_apart : forall i j s1 s2,
    (i < j)%nat -> ships !! i = Some s1 -> ships !! j = Some s2 -> ~ near_ships s1 s2
}.

(** A run of the default factory: the draws, eight iterations of the
    placement loop in all, and the fleet returned. *)
Definition default_draws : tape :=
  [0; 0; 0;  0; 0; 0;  0; 2; 1;  0; 2; 1;  7; 7; 0;  5; 0; 0;  0; 4; 1;  0; 6; 1].

Definition default_fleet : list Ship :=
  [ mkShip 1 1 1 1 {[ (1, 1) ]} ∅;
    mkShip 1 3 2 3 {[ (1, 3); (2, 3) ]} ∅;
    mkShip 8 8 8 10 {[ (8, 8); (8, 9); (8, 10) ]} ∅;
    mkShip 6 1 6 4 {[ (6, 1); (6, 2); (6, 3); (6, 4) ]} ∅;
    mkShip 1 7 5 7 {[ (1, 7); (2, 7); (3, 7); (4, 7); (5, 7) ]} ∅ ].

Definition ship_1_1_1_1 : Ship := mkShip 1 1 1 1 {[ (1, 1) ]} ∅.

(** The first [n] draws of an infinite sequence of draws. *)
Definition first_draws (draws : nat -> Z) (n : nat) : tape := draws <$> seq 0 n.

(** A factory asked for one ship of length 0, and one asked for two
    one-cell ships on a board of one cell. *)
Definition factory_length_0 : ShipFactory := mkShipFactory (10, 10) [(0, 1)].

Definition factory_crowded : ShipFactory := mkShipFactory (1, 1) [(1, 2)].

(** A call on the player, and the player after a sequence of calls
    ([None] if one of them is still running at the end of its tape). *)
Inductive call : Type :=
| SelectTarget (t : tape)
| ReceiveResult (is_ship_hit has_ship_sunk : bool).

Definition do_call (c : call) (s : AutomaticPlayer) : option AutomaticPlayer :=
  match c with
  | SelectTarget t => state_after (select_target t s)
  | ReceiveResult hit sunk => state_after (receive_result hit sunk s)
  end.

Fixpoint run_calls (cs : list call) (s : AutomaticPlayer) : option AutomaticPlayer :=
  match cs with
  | [] => Some s
  | c :: rest =>
      match do_call c s with
      | Some s' => run_calls rest s'
      | None => None
      end
  end.

(** A random shot at (5,5) that hits, then the probe at (5,6) hits too:
    the anchor is (5,5) and the last target (5,6). *)
Definition after_second_hit : AutomaticPlayer :=
  mkAutomaticPlayer 10 10 true [Some (5, 5); Some (5, 6)] (Some (5, 6)) 0 (Some (5, 5)).

(** A hit at (5,5), then the four probes around it all miss. *)
Definition after_four_misses : AutomaticPlayer :=
  mkAutomaticPlayer 10 10 true
    [Some (5, 5); Some (5, 6); Some (6, 5); Some (5, 4); Some (4, 5)]
    (Some (5, 5)) 4 (Some (5, 5)).

(** A random shot at (5,6) that misses, then one at (5,5) that hits. *)
Definition after_miss_then_hit : AutomaticPlayer :=
  mkAutomaticPlayer 10 10 true [Some (5, 6); Some (5, 5)] (Some (5, 5)) 0 (Some (5, 5)).

(** ** Further notions *)

(** The first version of [is_near_cell], kept in the note that ends the
    method: the bounding box of the ship, one cell wider on every side. *)
Definition is_near_cell_box (s : Ship) (c : cell) : bool :=
  (bool_decide (x_start s - 1 <= c.1) && bool_decide (c.1 <= x_end s + 1))
  && (bool_decide (y_start s - 1 <= c.2) && bool_decide (c.2 <= y_end s + 1)).

(** The bounding boxes of two ships overlap or touch, corners included. *)
Definition boxes_touch (s1 s2 : Ship) : bool :=
  (bool_decide (x_start s1 - 1 <= x_end s2) && bool_decide (x_start s2 - 1 <= x_end s1))
  && (bool_decide (y_start s1 - 1 <= y_end s2) && bool_decide (y_start s2 - 1 <= y_end s1)).

(** A ship after [receive_damage] has been called on it with each cell of
    [shots] in turn. *)
Definition receive_damages (s : Ship) (shots : list cell) : Ship :=
  foldl (fun s c => (receive_damage s c).1) s shots.

(** A factory that asks for nothing, on a board without cells, and one
    that asks for a ship on a board without columns. *)
Definition factory_nothing : ShipFactory := mkShipFactory (0, 0) [(3, 0); (2, -1)].

Definition factory_no_columns : ShipFactory := mkShipFactory (0, 10) [(3, 0); (2, 1)].

(** When [m] returns it has read a whole number [k] of triples of draws
    from the front of the tape, with [lo <= k]. *)
Definition reads_triples {A} (lo : nat) (m : M tape A) : Prop :=
  forall t a t', m t = Ok a t' ->
    exists used k, t = used ++ t' /\ List.length used = (3 * k)%nat /\ (lo <= k)%nat.

(** The player after [select_target] has chosen [target]: the last two
    statements of the method. *)
Definition record_target (target : option cell) (s : AutomaticPlayer) : AutomaticPlayer :=
  set_attacked_positions (attacked_positions s ++ [target])
    (set_previous_coordinates target s).

(** The last target and the anchor, when there are any, are cells that
    were attacked. *)
Definition targets_attacked (s : AutomaticPlayer) : Prop :=
  (forall p, previous_coordinates s = Some p -> Some p ∈ attacked_positions s)
  /\ (forall a, save_ship_initial s = Some a -> Some a ∈ attacked_positions s).

(** The first direction, from the counter on, whose probe from [p] is on
    the board. *)
Definition next_probe (s : AutomaticPlayer) (p : cell) : option Z :=
  List.find (fun j => bool_decide (cycle s <= j) && on_board s (offset p j)) [0; 1; 2; 3].

(** A hunting player has an anchor. *)
Definition hunt_has_anchor (s : AutomaticPlayer) : Prop :=
  implement_strategy s = true -> is_Some (save_ship_initial s).

(** A player on a board of one cell that has attacked it. *)
Definition idle_1x1_attacked : AutomaticPlayer :=
  mkAutomaticPlayer 1 1 false [Some (1, 1)] (Some (1, 1)) 0 None.

(** * Properties of [Ship] *)

(** Membership in a set built by adding one cell per element of a list. *)
Lemma elem_of_foldl_add {A} (f : A -> cell) (l : list A) (init : gset cell) (c : cell) :
  c ∈ foldl (fun acc a => acc ∪ {[ f a ]}) init l <-> c ∈ init \/ exists a, a ∈ l /\ c = f a.
Proof.
  revert init. induction l as [|a l IH]; intros init; simpl.
  - split; [auto|]. intros [H|(a & Ha & _)]; [done|]. by apply elem_of_nil in Ha.
  - rewrite IH, elem_of_union, elem_of_singleton. split.
    + intros [[H|H]|(b & Hb & Hc)]; [by left| |].
      * right. exists a. split; [left|done].
      * right. exists b. split; [by right|done].
    + intros [H|(b & Hb & Hc)]; [by left; left|].
      apply elem_of_cons in Hb as [->|Hb]; [left; by right|].
      right. by exists b.
Qed.

Lemma size_foldl_add {A} (f : A -> cell) (l : list A) (init : gset cell) :
  (forall a b, f a = f b -> a = b) -> NoDup l -> (forall a, a ∈ l -> f a ∉ init) ->
  size (foldl (fun acc a => acc ∪ {[ f a ]}) init l) = (size init + List.length l)%nat.
Proof.
  intros Hinj. revert init. induction l as [|a l IH]; intros init Hnd Hfresh; simpl.
  - lia.
  - apply NoDup_cons in Hnd as [Ha Hnd].
    rewrite IH; [|done|].
    + rewrite size_union, size_singleton; [lia|].
      apply disjoint_singleton_r, Hfresh. left.
    + intros b Hb. rewrite elem_of_union, elem_of_singleton.
      intros [Hin|Heq].
      * apply (Hfresh b); [by right|done].
      * apply Hinj in Heq. by subst.
Qed.

Lemma elem_of_range (a b k : Z) : k ∈ range a b <-> a <= k < b.
Proof. unfold range. rewrite elem_of_seqZ. lia. Qed.

Lemma length_range (a b : Z) : List.length (range a b) = Z.to_nat (b - a).
Proof. unfold range. apply length_seqZ. Qed.

Lemma is_horizontal_at_true ys ye : is_horizontal_at ys ye = true <-> ys = ye.
Proof. unfold is_horizontal_at. case_decide; split; auto; discriminate. Qed.

Lemma is_vertical_at_true xs xe : is_vertical_at xs xe = true <-> xs = xe.
Proof. unfold is_vertical_at. case_decide; split; auto; discriminate. Qed.

Lemma get_cells_at_spec xs ys xe ye cs :
  xs <= xe -> ys <= ye ->
  get_cells_at xs ys xe ye = Some cs ->
  (ys = ye \/ xs = xe)
  /\ (forall c : cell, c ∈ cs <-> (xs <= c.1 <= xe) /\ (ys <= c.2 <= ye))
  /\ Z.of_nat (size cs) = (xe - xs) + (ye - ys) + 1.
Proof.
  intros Hx Hy. unfold get_cells_at.
  destruct (is_horizontal_at ys ye) eqn:Hh.
  - apply is_horizontal_at_true in Hh. subst ye. intros [= <-].
    split; [by left|]. split.
    + intros [cx cy]. rewrite elem_of_foldl_add. simpl. split.
      * intros [H|(a & Ha & [= -> ->])]; [by apply not_elem_of_empty in H|].
        apply elem_of_range in Ha. lia.
      * intros [H1 H2]. right. exists cx. rewrite elem_of_range.
        split; [lia|]. f_equal. lia.
    + rewrite size_foldl_add.
      * rewrite size_empty, length_range. lia.
      * by intros a b [= ->].
      * apply NoDup_seqZ.
      * intros a _. apply not_elem_of_empty.
  - destruct (is_vertical_at xs xe) eqn:Hv; [|discriminate].
    apply is_vertical_at_true in Hv. subst xe. intros [= <-].
    split; [by right|]. split.
    + intros [cx cy]. rewrite elem_of_foldl_add. simpl. split.
      * intros [H|(a & Ha & [= -> ->])]; [by apply not_elem_of_empty in H|].
        apply elem_of_range in Ha. lia.
      * intros [H1 H2]. right. exists cy. rewrite elem_of_range.
        split; [lia|]. f_equal. lia.
    + rewrite size_foldl_add.
      * rewrite size_empty, length_range. lia.
      * by intros a b [= ->].
      * apply NoDup_seqZ.
      * intros a _. apply not_elem_of_empty.
Qed.

(** The constructor either raises [ValueError], exactly when the two
    cells differ in both coordinates, or returns a ship; it never takes
    its last branch. *)
Lemma Ship_init_result (start end_ : cell) :
  (start.1 <> end_.1 /\ start.2 <> end_.2 /\ Ship_init start end_ = inl ValueError)
  \/ ((start.1 = end_.1 \/ start.2 = end_.2) /\ exists s, Ship_init start end_ = inr s).
Proof.
  destruct start as [x0 y0], end_ as [x1 y1]. simpl. unfold Ship_init, get_cells_at.
  destruct (is_horizontal_at (y0 `min` y1) (y0 `max` y1)) eqn:Hh; simpl.
  - right. apply is_horizontal_at_true in Hh. split; [right; lia|eauto].
  - destruct (is_vertical_at (x0 `min` x1) (x0 `max` x1)) eqn:Hv; simpl.
    + right. apply is_vertical_at_true in Hv. split; [left; lia|eauto].
    + left. split; [|split; [|done]].
      * intros ->. rewrite Z.min_id, Z.max_id in Hv.
        assert (is_vertical_at x1 x1 = true) by by apply is_vertical_at_true.
        congruence.
      * intros ->. rewrite Z.min_id, Z.max_id in Hh.
        assert (is_horizontal_at y1 y1 = true) by by apply is_horizontal_at_true.
        congruence.
Qed.

Lemma Ship_init_fields start end_ s :
  Ship_init start end_ = inr s ->
  x_start s = Z.min start.1 end_.1 /\ x_end s = Z.max start.1 end_.1
  /\ y_start s = Z.min start.2 end_.2 /\ y_end s = Z.max start.2 end_.2
  /\ get_cells s = Some (cells s) /\ damaged_cells s = ∅.
Proof.
  destruct start as [x0 y0], end_ as [x1 y1]. unfold Ship_init, get_cells.
  destruct (negb _ && negb _); [discriminate|].
  destruct (get_cells_at _ _ _ _) as [cs|] eqn:Hc; [|discriminate].
  intros [= <-]. simpl. by rewrite Hc.
Qed.

Lemma Ship_init_inv start end_ s : Ship_init start end_ = inr s -> ship_inv s.
Proof.
  intros H. apply Ship_init_fields in H as (Hxs & Hxe & Hys & Hye & Hc & _).
  unfold get_cells in Hc. apply get_cells_at_spec in Hc as (H1 & H2 & H3); [|lia|lia].
  split; [done|lia|lia|done|done].
Qed.

Lemma receive_damage_geometry s c :
  let s' := (receive_damage s c).1 in
  x_start s' = x_start s /\ y_start s' = y_start s /\ x_end s' = x_end s
  /\ y_end s' = y_end s /\ cells s' = cells s.
Proof. unfold receive_damage. by destruct (truthy _). Qed.

Lemma constructed_inv s : constructed s -> ship_inv s.
Proof.
  induction 1 as [start end_ s H|s c _ IH]; [by eapply Ship_init_inv|].
  destruct (receive_damage_geometry s c) as (H1 & H2 & H3 & H4 & H5).
  destruct IH as [I1 I2 I3 I4 I5].
  split; rewrite ?H1, ?H2, ?H3, ?H4, ?H5; done.
Qed.

Lemma scan_range_true check l : scan_range check l = true <-> check ∈ l.
Proof.
  induction l as [|a l IH]; simpl.
  - split; [discriminate|]. intros H. by apply elem_of_nil in H.
  - rewrite elem_of_cons. case_decide; [by intuition|]. rewrite IH. by intuition.
Qed.

Lemma near_test_chebyshev (o c : cell) : near_test o c = true <-> chebyshev o c <= 1.
Proof.
  unfold near_test, chebyshev.
  rewrite !andb_true_iff, !bool_decide_eq_true. lia.
Qed.

Lemma chebyshev_sym (a b : cell) : chebyshev a b = chebyshev b a.
Proof. unfold chebyshev. lia. Qed.

Lemma scan_cells_true c l :
  scan_cells c l = true <-> exists o, o ∈ l /\ chebyshev o c <= 1.
Proof.
  induction l as [|a l IH]; simpl.
  - split; [discriminate|]. intros (o & Ho & _). by apply elem_of_nil in Ho.
  - destruct (near_test a c) eqn:Ha.
    + split; [|done]. intros _. exists a. split; [left|by apply near_test_chebyshev].
    + rewrite IH. split.
      * intros (o & Ho & Hd). exists o. split; [by right|done].
      * intros (o & Ho & Hd). apply elem_of_cons in Ho as [->|Ho]; [|by exists o].
        apply near_test_chebyshev in Hd. congruence.
Qed.

Lemma near_ships_sym s1 s2 : near_ships s1 s2 -> near_ships s2 s1.
Proof.
  intros (c1 & c2 & H1 & H2 & Hd). exists c2, c1. by rewrite chebyshev_sym.
Qed.

Section OneShip.

Context (s : Ship) (Hs : ship_inv s).

(** [is_occupying_cell] is [True] exactly on the occupied cells; on the
    others it is [False] or [None]. *)
Lemma is_occupying_cell_true c : is_occupying_cell s c = Some true <-> c ∈ cells s.
Proof.
  destruct Hs as [I1 I2 I3 I4 I5]. rewrite I4. destruct c as [cx cy]. simpl.
  unfold is_occupying_cell, is_horizontal, is_vertical.
  destruct (is_horizontal_at _ _) eqn:Hh; simpl.
  - apply is_horizontal_at_true in Hh. case_bool_decide as Hy; simpl.
    + split.
      * intros [= H]. apply scan_range_true, elem_of_range in H. lia.
      * intros [H1 H2]. f_equal. apply scan_range_true, elem_of_range. lia.
    + destruct (is_vertical_at _ _) eqn:Hv; simpl.
      * apply is_vertical_at_true in Hv. case_bool_decide as Hx; simpl.
        -- split; [|lia]. intros [= H]. apply scan_range_true, elem_of_range in H. lia.
        -- split; [discriminate|lia].
      * split; [discriminate|lia].
  - assert (y_start s <> y_end s) as Hne.
    { intros E. apply is_horizontal_at_true in E. congruence. }
    destruct I1 as [?|I1]; [done|].
    assert (is_vertical_at (x_start s) (x_end s) = true) as -> by by apply is_vertical_at_true.
    simpl. case_bool_decide as Hx; simpl.
    + split.
      * intros [= H]. apply scan_range_true, elem_of_range in H. lia.
      * intros [H1 H2]. f_equal. apply scan_range_true, elem_of_range. lia.
    + split; [discriminate|lia].
Qed.

Lemma truthy_is_occupying_cell c :
  truthy (is_occupying_cell s c) = true <-> c ∈ cells s.
Proof.
  rewrite <- (is_occupying_cell_true c).
  destruct (is_occupying_cell s c) as [[]|]; simpl; split; congruence.
Qed.

Lemma Ship_length_inv :
  Ship_length s = (x_end s - x_start s) + (y_end s - y_start s) + 1.
Proof.
  destruct Hs as [I1 _ _ _ I5]. unfold Ship_length, is_horizontal, is_vertical.
  destruct (is_horizontal_at _ _) eqn:Hh; [done|].
  destruct (is_vertical_at _ _) eqn:Hv; [done|].
  destruct I1 as [I1|I1].
  - apply is_horizontal_at_true in I1. congruence.
  - apply is_vertical_at_true in I1. congruence.
Qed.

(** On a ship that is horizontal or vertical [is_near_cell] returns a
    Boolean, the result of the scan over its cells. *)
Lemma is_near_cell_scan c :
  is_near_cell s c = Some (scan_cells c (elements (cells s))).
Proof.
  destruct Hs as [I1 _ _ _ _]. unfold is_near_cell, is_horizontal, is_vertical.
  destruct (is_horizontal_at _ _) eqn:Hh; [done|].
  destruct I1 as [I1|I1].
  - apply is_horizontal_at_true in I1. congruence.
  - apply is_vertical_at_true in I1. by rewrite I1.
Qed.

Lemma truthy_is_near_cell c :
  truthy (is_near_cell s c) = true <-> exists o, o ∈ cells s /\ chebyshev o c <= 1.
Proof.
  rewrite is_near_cell_scan. simpl. rewrite scan_cells_true.
  by setoid_rewrite elem_of_elements.
Qed.

Lemma scan_other_true l :
  scan_other s l = true <-> exists c, c ∈ l /\ truthy (is_near_cell s c) = true.
Proof.
  induction l as [|a l IH]; simpl.
  - split; [discriminate|]. intros (o & Ho & _). by apply elem_of_nil in Ho.
  - destruct (truthy (is_near_cell s a)) eqn:Ha.
    + split; [|done]. intros _. exists a. split; [left|done].
    + rewrite IH. split.
      * intros (o & Ho & Hd). exists o. split; [by right|done].
      * intros (o & Ho & Hd). apply elem_of_cons in Ho as [->|Ho]; [congruence|by exists o].
Qed.

Lemma is_near_ship_true other_ship :
  is_near_ship s other_ship = true <-> near_ships s other_ship.
Proof.
  unfold is_near_ship, near_ships. rewrite scan_other_true. split.
  - intros (c & Hc & Hn). apply elem_of_elements in Hc.
    apply truthy_is_near_cell in Hn as (o & Ho & Hd). by exists o, c.
  - intros (c1 & c2 & H1 & H2 & Hd). exists c2. rewrite elem_of_elements.
    split; [done|]. apply truthy_is_near_cell. by exists c1.
Qed.

End OneShip.


(** Concrete ships are what the constructor returns. *)
Lemma Ship_init_3_3_5_3 : Ship_init (3, 3) (5, 3) = inr ship_3_3_5_3.
Proof. vm_compute. reflexivity. Defined.

Lemma Ship_init_4_1_4_5 : Ship_init (4, 1) (4, 5) = inr ship_4_1_4_5.
Proof. vm_compute. reflexivity. Defined.

Lemma Ship_init_3_3_3_3 : Ship_init (3, 3) (3, 3) = inr ship_3_3_3_3.
Proof. vm_compute. reflexivity. Defined.

(** * The claims about [Ship] *)

(** C3. For a constructed ship [s] and a cell [c], [receive_damage]
    returns [True] exactly when [s] occupies [c]; when it returns [True]
    the cell is added to [damaged_cells] and nothing else changes, and if
    the cell was damaged already the ship is unchanged; when it returns
    [False] the ship is unchanged. *)
Theorem receive_damage_spec (s : Ship) (c : cell) (Hs : constructed s) :
  ((receive_damage s c).2 = true <-> c ∈ cells s)
  /\ ((receive_damage s c).2 = true <-> is_occupying_cell s c = Some true)
  /\ ((receive_damage s c).2 = true ->
        (receive_damage s c).1
        = mkShip (x_start s) (y_start s) (x_end s) (y_end s) (cells s)
                 (damaged_cells s ∪ {[ c ]})
        /\ c ∈ damaged_cells (receive_damage s c).1)
  /\ (c ∈ cells s -> c ∈ damaged_cells s -> receive_damage s c = (s, true))
  /\ ((receive_damage s c).2 = false -> (receive_damage s c).1 = s).
Proof.
  apply constructed_inv in Hs.
  pose proof (truthy_is_occupying_cell s Hs c) as Ht.
  pose proof (is_occupying_cell_true s Hs c) as Ho.
  unfold receive_damage.
  destruct (truthy (is_occupying_cell s c)) eqn:E; simpl.
  - split; [tauto|]. split; [tauto|]. split; [|split; [|discriminate]].
    + intros _. split; [done|]. by apply elem_of_union_r, elem_of_singleton_2.
    + intros _ Hd. f_equal. destruct s as [a b d e cs dm]. simpl in *. f_equal.
      rewrite (union_comm_L dm). by apply subseteq_union_1_L, singleton_subseteq_l.
  - split; [|split; [|split; [discriminate|split; [|done]]]].
    + split; [discriminate|]. intros H. apply Ht in H. discriminate.
    + split; [discriminate|]. intros H. apply Ho, Ht in H. discriminate.
    + intros H. apply Ht in H. discriminate.
Qed.

Lemma receive_damage_spec_witness :
  constructed ship_3_3_5_3
  /\ (receive_damage ship_3_3_5_3 (4, 3)).2 = true
  /\ (receive_damage ship_3_3_5_3 (10, 3)).2 = false.
Proof.
  assert (constructed ship_3_3_5_3) as Hs
    by exact (constructed_init (3, 3) (5, 3) _ Ship_init_3_3_5_3).
  split; [exact Hs|]. split.
  - apply (receive_damage_spec ship_3_3_5_3 (4, 3) Hs). vm_compute. reflexivity.
  - vm_compute. reflexivity.
Defined.

(** C4, as amended. The constructor raises [ValueError] exactly when the
    normalized endpoints share neither their x nor their y, that is when
    the two given cells differ in both coordinates; endpoints that share
    one axis value or both (equal cells) give a ship. A call that raises
    returns no ship, and no other exception is raised. *)
Theorem Ship_init_ValueError_iff (start end_ : cell) :
  (Ship_init start end_ = inl ValueError <-> ~ share_x start end_ /\ ~ share_y start end_)
  /\ (Ship_init start end_ = inl ValueError <-> start.1 <> end_.1 /\ start.2 <> end_.2)
  /\ ((exists s, Ship_init start end_ = inr s) <-> share_x start end_ \/ share_y start end_)
  /\ (forall e, Ship_init start end_ = inl e ->
        e = ValueError /\ forall s, Ship_init start end_ <> inr s).
Proof.
  unfold share_x, share_y.
  destruct (Ship_init_result start end_) as [(Hx & Hy & H)|(Ha & s & H)]; rewrite H.
  - split; [split; [lia|done]|]. split; [done|]. split.
    + split; [by intros (s & ?)|lia].
    + intros e [= <-]. split; [done|]. by intros s.
  - split; [split; [discriminate|lia]|]. split; [split; [discriminate|lia]|]. split.
    + split; [lia|eauto].
    + intros e. discriminate.
Qed.

(** C4, the claim as written fails: the cells (3,3) and (3,3) share both
    axis values, not exactly one, and the constructor returns a ship. *)
Lemma Ship_init_single_cell_counterexample :
  ~ (forall start end_ : cell,
       ~ share_exactly_one_axis start end_ -> Ship_init start end_ = inl ValueError).
Proof.
  intros H. specialize (H (3, 3) (3, 3)).
  rewrite Ship_init_3_3_3_3 in H.
  assert (inr ship_3_3_3_3 = inl ValueError :> exn + Ship) as E; [|discriminate E].
  apply H. unfold share_exactly_one_axis, share_x, share_y. simpl. lia.
Qed.

(** C5. [is_occupying_cell] does not return [False] on every cell that is
    not occupied: for the ship from (3,3) to (5,3) and the cell (3,4),
    which is not one of its cells, neither branch is taken and the method
    returns [None]. *)
Theorem is_occupying_cell_returns_None :
  Ship_init (3, 3) (5, 3) = inr ship_3_3_5_3
  /\ ((3, 4) ∉ cells ship_3_3_5_3)
  /\ is_occupying_cell ship_3_3_5_3 (3, 4) = None.
Proof.
  split; [exact Ship_init_3_3_5_3|]. split; [|vm_compute; reflexivity].
  rewrite (inv_cells _ (Ship_init_inv _ _ _ Ship_init_3_3_5_3)). simpl. lia.
Qed.

(** C7. For a constructed ship [s] and a cell [c], [is_near_cell] returns
    [True] exactly when [c] is within Chebyshev distance 1 of some
    occupied cell of [s], and [False] otherwise. For the ship from (3,3)
    to (5,3) it is [True] at (5,3), (6,3) and (6,4) and [False] at (7,3). *)
Theorem is_near_cell_chebyshev (s : Ship) (c : cell) (Hs : constructed s) :
  (is_near_cell s c = Some true <-> exists o, o ∈ cells s /\ chebyshev o c <= 1)
  /\ (is_near_cell s c = Some false <-> ~ exists o, o ∈ cells s /\ chebyshev o c <= 1)
  /\ (exists s35, Ship_init (3, 3) (5, 3) = inr s35
        /\ is_near_cell s35 (5, 3) = Some true
        /\ is_near_cell s35 (6, 3) = Some true
        /\ is_near_cell s35 (6, 4) = Some true
        /\ is_near_cell s35 (7, 3) = Some false).
Proof.
  apply constructed_inv in Hs.
  pose proof (truthy_is_near_cell s Hs c) as Ht.
  rewrite is_near_cell_scan in * by done. simpl in Ht.
  split; [|split].
  - rewrite <- Ht. split; congruence.
  - rewrite <- Ht. destruct (scan_cells _ _); split; congruence.
  - exists ship_3_3_5_3. split; [exact Ship_init_3_3_5_3|]. vm_compute. done.
Qed.

Lemma is_near_cell_chebyshev_witness :
  constructed ship_4_1_4_5
  /\ (is_near_cell ship_4_1_4_5 (5, 6) = Some true
      <-> exists o, o ∈ cells ship_4_1_4_5 /\ chebyshev o (5, 6) <= 1).
Proof.
  assert (constructed ship_4_1_4_5) as Hs
    by exact (constructed_init (4, 1) (4, 5) _ Ship_init_4_1_4_5).
  split; [exact Hs|].
  exact (proj1 (is_near_cell_chebyshev ship_4_1_4_5 (5, 6) Hs)).
Defined.

(** C9. Nearness of two constructed ships does not depend on which of the
    two is asked. *)
Theorem is_near_ship_sym (s1 s2 : Ship) (H1 : constructed s1) (H2 : constructed s2) :
  is_near_ship s1 s2 = is_near_ship s2 s1.
Proof.
  apply constructed_inv in H1, H2.
  pose proof (is_near_ship_true s1 H1 s2) as E1.
  pose proof (is_near_ship_true s2 H2 s1) as E2.
  destruct (is_near_ship s1 s2), (is_near_ship s2 s1); try done.
  - assert (false = true) as E; [|discriminate E].
    apply E2, near_ships_sym, E1. reflexivity.
  - assert (false = true) as E; [|discriminate E].
    apply E1, near_ships_sym, E2. reflexivity.
Qed.

Lemma is_near_ship_sym_witness :
  constructed ship_3_3_5_3 /\ constructed ship_4_1_4_5
  /\ is_near_ship ship_3_3_5_3 ship_4_1_4_5 = is_near_ship ship_4_1_4_5 ship_3_3_5_3.
Proof.
  assert (constructed ship_3_3_5_3) as Ha
    by exact (constructed_init (3, 3) (5, 3) _ Ship_init_3_3_5_3).
  assert (constructed ship_4_1_4_5) as Hb
    by exact (constructed_init (4, 1) (4, 5) _ Ship_init_4_1_4_5).
  split; [exact Ha|]. split; [exact Hb|].
  exact (is_near_ship_sym ship_3_3_5_3 ship_4_1_4_5 Ha Hb).
Defined.

(** * Properties of [AutomaticPlayer] *)

Lemma run_calls_reachable cs s s' :
  reachable s -> run_calls cs s = Some s' -> reachable s'.
Proof.
  revert s. induction cs as [|c cs IH]; intros s Hs; simpl.
  - by intros [= <-].
  - destruct (do_call c s) as [s1|] eqn:Hc; [|discriminate].
    apply IH. destruct c as [t|hit sunk]; simpl in Hc.
    + by eapply reachable_select_target.
    + by eapply reachable_receive_result.
Qed.

Lemma probe_spec k c next s :
  probe k c next s =
  if bool_decide (cycle s = k) then
    if on_board s c then Ok (Some c) s else Ok None (set_cycle (next (cycle s)) s)
  else Ok None s.
Proof.
  unfold probe, bind, get, modify, ret.
  destruct (bool_decide _); [|done]. by destruct (on_board s c).
Qed.

Lemma on_board_set_cycle k s c : on_board (set_cycle k s) c = on_board s c.
Proof. reflexivity. Qed.

Lemma on_board_true s c :
  on_board s c = true <-> (0 < c.1 <= board_width s) /\ (0 < c.2 <= board_height s).
Proof. unfold on_board. rewrite !andb_true_iff, !bool_decide_eq_true. lia. Qed.

Lemma set_cycle_set_cycle j k s : set_cycle j (set_cycle k s) = set_cycle j s.
Proof. reflexivity. Qed.

Lemma set_cycle_same s : set_cycle (cycle s) s = s.
Proof. by destruct s. Qed.

(** One step of the case analysis of [strategy_function]. *)
Ltac probe_step :=
  match goal with
  | |- context [probe ?k ?c ?n ?s] => rewrite (probe_spec k c n s)
  | |- context [bool_decide ?P] => destruct (bool_decide_reflect P)
  | |- context [on_board (set_cycle ?k ?s) ?c] => rewrite (on_board_set_cycle k s c)
  | |- context [on_board ?s ?c] => destruct (on_board s c) eqn:?
  end; simpl in *.





Lemma reachable_after_second_hit : reachable after_second_hit.
Proof.
  apply (run_calls_reachable
           [SelectTarget [4; 4]; ReceiveResult true false;
            SelectTarget []; ReceiveResult true false]
           (AutomaticPlayer_init 10 10)).
  - apply reachable_init.
  - vm_compute. reflexivity.
Defined.

Lemma reachable_after_miss_then_hit : reachable after_miss_then_hit.
Proof.
  apply (run_calls_reachable
           [SelectTarget [4; 5]; ReceiveResult false false;
            SelectTarget [4; 4]; ReceiveResult true false]
           (AutomaticPlayer_init 10 10)).
  - apply reachable_init.
  - vm_compute. reflexivity.
Defined.

(** * The claims about [AutomaticPlayer] *)




Lemma select_target_probe t s p :
  implement_strategy s = true ->
  previous_coordinates s = Some p ->
  0 <= cycle s <= 3 ->
  on_board s (offset p (cycle s)) = true ->
  select_target t s
  = Ok (Some (offset p (cycle s)))
       (set_attacked_positions (attacked_positions s ++ [Some (offset p (cycle s))])
          (set_previous_coordinates (Some (offset p (cycle s))) s)).
Proof.
  intros Hhunt Hprev Hcycle Hboard. destruct p as [x y].
  unfold select_target, bind, get, modify, ret. rewrite Hhunt.
  unfold strategy_function, or_else, bind, get, raise, ret. rewrite Hprev.
  unfold offset, direction in *. simpl in *.
  assert (cycle s = 0 \/ cycle s = 1 \/ cycle s = 2 \/ cycle s = 3) as Hk by lia.
  destruct Hk as [E|[E|[E|E]]]; rewrite E in *; simpl in *;
    rewrite ?Z.add_0_r in *;
    change (y + -1) with (y - 1) in *; change (x + -1) with (x - 1) in *;
    repeat probe_step; try lia; try congruence; reflexivity.
Qed.

Lemma receive_result_miss s a :
  implement_strategy s = true -> save_ship_initial s = Some a -> cycle s < 4 ->
  receive_result false false s
  = Ok tt (set_previous_coordinates (Some a) (set_cycle (cycle s + 1) s)).
Proof.
  intros Hhunt Ha Hc. unfold receive_result, bind, get, modify, raise, ret. simpl.
  rewrite Hhunt, Ha. simpl. rewrite bool_decide_eq_true_2 by done. by destruct a.
Qed.

Lemma receive_result_hit_again s a :
  implement_strategy s = true -> save_ship_initial s = Some a ->
  receive_result true false s = Ok tt s.
Proof.
  intros Hhunt Ha. unfold receive_result, bind, get, modify, raise, ret. simpl.
  rewrite Ha. f_equal. destruct s. simpl in *. by subst.
Qed.

Lemma receive_result_first_hit s p :
  save_ship_initial s = None -> previous_coordinates s = Some p ->
  receive_result true false s
  = Ok tt (set_save_ship_initial (Some p) (set_implement_strategy true s)).
Proof.
  intros Ha Hp. unfold receive_result, bind, get, modify, raise, ret. simpl.
  rewrite Ha, Hp. by destruct p.
Qed.

Lemma misses_step n s target s1 s2 :
  select_target [] s = Ok target s1 ->
  receive_result false false s1 = Ok tt s2 ->
  misses (S n) s = target :: misses n s2.
Proof. intros H1 H2. simpl. by rewrite H1, H2. Qed.

(** The probes around an anchor (x, y) whose four neighbours are on the
    board, when each of them misses. *)
Lemma misses_around_anchor width height attacked x y :
  1 < x < width -> 1 < y < height ->
  misses 4 (mkAutomaticPlayer width height true attacked (Some (x, y)) 0 (Some (x, y)))
  = [Some (x, y + 1); Some (x + 1, y); Some (x, y - 1); Some (x - 1, y)].
Proof.
  intros Hx Hy.
  assert (forall k att n,
    0 <= k <= 3 ->
    misses (S n) (mkAutomaticPlayer width height true att (Some (x, y)) k (Some (x, y)))
    = Some (offset (x, y) k)
      :: misses n (mkAutomaticPlayer width height true (att ++ [Some (offset (x, y) k)])
                     (Some (x, y)) (k + 1) (Some (x, y)))) as Hstep.
  { intros k att n Hk. eapply misses_step.
    - apply (select_target_probe []
               (mkAutomaticPlayer width height true att (Some (x, y)) k (Some (x, y)))
               (x, y)); try done.
      apply on_board_true. unfold offset, direction. simpl.
      repeat case_decide; simpl; lia.
    - erewrite receive_result_miss; [reflexivity|reflexivity|reflexivity|simpl; lia]. }
  rewrite (Hstep 0) by lia. change (0 + 1) with 1.
  rewrite (Hstep 1) by lia. change (1 + 1) with 2.
  rewrite (Hstep 2) by lia. change (2 + 1) with 3.
  rewrite (Hstep 3) by lia.
  unfold offset, direction. simpl. rewrite !Z.add_0_r. reflexivity.
Qed.

(** C2, as amended. In a hunting state whose counter is in {0,1,2,3},
    [select_target] returns [previous_coordinates] offset by the direction
    of the counter (north, east, south, west), when that cell is on the
    board. [previous_coordinates] is the anchor right after the hit that
    starts the hunt and after every miss reported while the counter is
    below 4, wherever the last target was; after a further hit that does
    not sink the ship it stays the cell just hit. With anchor (5,5), all
    probes on the board and only misses, the targets are (5,6), (6,5),
    (5,4), (4,5) in this order. *)
Theorem select_target_hunting (s : AutomaticPlayer) (t : tape) (p : cell)
    (Hhunt : implement_strategy s = true)
    (Hprev : previous_coordinates s = Some p)
    (Hcycle : 0 <= cycle s <= 3)
    (Hboard : on_board s (offset p (cycle s)) = true) :
  select_target t s
  = Ok (Some (offset p (cycle s)))
       (set_attacked_positions (attacked_positions s ++ [Some (offset p (cycle s))])
          (set_previous_coordinates (Some (offset p (cycle s))) s))
  /\ (forall s0 a, implement_strategy s0 = true -> save_ship_initial s0 = Some a ->
        (cycle s0 < 4 ->
         receive_result false false s0
         = Ok tt (set_previous_coordinates (Some a) (set_cycle (cycle s0 + 1) s0)))
        /\ receive_result true false s0 = Ok tt s0)
  /\ (forall s0 p0, save_ship_initial s0 = None -> previous_coordinates s0 = Some p0 ->
        receive_result true false s0
        = Ok tt (set_save_ship_initial (Some p0) (set_implement_strategy true s0)))
  /\ (offset p 0 = (p.1, p.2 + 1) /\ offset p 1 = (p.1 + 1, p.2)
      /\ offset p 2 = (p.1, p.2 - 1) /\ offset p 3 = (p.1 - 1, p.2))
  /\ (forall width height attacked, 5 < width -> 5 < height ->
        misses 4 (mkAutomaticPlayer width height true attacked (Some (5, 5)) 0 (Some (5, 5)))
        = [Some (5, 6); Some (6, 5); Some (5, 4); Some (4, 5)]).
Proof.
  split; [by apply select_target_probe|]. split; [|split; [|split]].
  - intros s0 a Hh Ha. split.
    + intros Hc. by apply receive_result_miss.
    + by eapply receive_result_hit_again.
  - intros s0 p0. apply receive_result_first_hit.
  - unfold offset, direction. simpl. rewrite !Z.add_0_r. done.
  - intros width height attacked Hw Hh.
    apply (misses_around_anchor width height attacked 5 5); lia.
Qed.

Lemma select_target_hunting_witness :
  select_target [] after_second_hit
  = Ok (Some (5, 7))
       (mkAutomaticPlayer 10 10 true [Some (5, 5); Some (5, 6); Some (5, 7)]
          (Some (5, 7)) 0 (Some (5, 5))).
Proof.
  refine (proj1 (select_target_hunting after_second_hit [] (5, 6) _ _ _ _)).
  - reflexivity.
  - reflexivity.
  - simpl. lia.
  - vm_compute. reflexivity.
Defined.

(** C2, the claim as written fails: after a hit at (5,5) and a second hit
    at (5,6) that does not sink the ship, the anchor is still (5,5) but the
    next target is (5,7), one step north of the last hit; it is not the
    anchor offset by any direction. *)
Lemma select_target_not_from_anchor_counterexample :
  ~ (forall s, reachable s -> implement_strategy s = true ->
       forall t target s', select_target t s = Ok (Some target) s' ->
         exists a k, save_ship_initial s = Some a /\ target = offset a k).
Proof.
  intros H.
  destruct (H after_second_hit reachable_after_second_hit eq_refl [] (5, 7)
              (mkAutomaticPlayer 10 10 true [Some (5, 5); Some (5, 6); Some (5, 7)]
                 (Some (5, 7)) 0 (Some (5, 5))))
    as (a & k & Ha & Hk).
  - vm_compute. reflexivity.
  - simpl in Ha. injection Ha as <-. revert Hk.
    unfold offset, direction. repeat case_decide; simpl; intros [= ].
Qed.

Lemma redraw_not_attacked fuel s c t c' t' :
  redraw fuel s c t = Ok c' t' -> Some c' ∉ attacked_positions s.
Proof.
  revert c t. induction fuel as [|fuel IH]; intros c t; simpl;
    case_bool_decide as Hin; try discriminate.
  - unfold ret. by intros [= <- <-].
  - unfold bind. destruct (get_random_coordinates s t) as [c1 t1|e t1|]; try discriminate.
    apply IH.
  - unfold ret. by intros [= <- <-].
Qed.

Lemma random_target_not_attacked s t c t' :
  random_target s t = Ok c t' -> Some c ∉ attacked_positions s.
Proof.
  unfold random_target, bind.
  destruct (get_random_coordinates s t) as [c1 t1|e t1|]; try discriminate.
  apply redraw_not_attacked.
Qed.

(** C10. When the player is not hunting, the target returned by
    [select_target] is a cell that was not attacked before; when it is
    hunting, the probe is not checked: after a random miss at (5,6) and a
    random hit at (5,5), [select_target] returns (5,6) again. *)
Theorem select_target_repeats_attack :
  (forall s t target s',
     implement_strategy s = false -> select_target t s = Ok target s' ->
     exists c, target = Some c /\ Some c ∉ attacked_positions s)
  /\ (exists s t c s',
        reachable s /\ implement_strategy s = true
        /\ select_target t s = Ok (Some c) s'
        /\ Some c ∈ attacked_positions s).
Proof.
  split.
  - intros s t target s' Hidle. unfold select_target, bind, get, modify, ret, with_tape.
    rewrite Hidle. destruct (random_target s t) as [c t'|e t'|] eqn:Hr; try discriminate.
    intros [= <- _]. exists c. split; [done|]. by eapply random_target_not_attacked.
  - exists after_miss_then_hit, [], (5, 6),
      (mkAutomaticPlayer 10 10 true [Some (5, 6); Some (5, 5); Some (5, 6)]
         (Some (5, 6)) 0 (Some (5, 5))).
    split; [exact reachable_after_miss_then_hit|]. split; [reflexivity|].
    split; [vm_compute; reflexivity|]. simpl. left.
Qed.

Lemma select_target_repeats_attack_witness :
  exists c, Some (5, 5) = Some c /\ Some c ∉ attacked_positions (AutomaticPlayer_init 10 10).
Proof.
  refine (proj1 select_target_repeats_attack (AutomaticPlayer_init 10 10) [4; 4]
            (Some (5, 5))
            (mkAutomaticPlayer 10 10 false [Some (5, 5)] (Some (5, 5)) 0 None) _ _).
  - reflexivity.
  - vm_compute. reflexivity.
Defined.

(** * Properties of [ShipFactory] *)

Lemma bind_Ok {St A B} (m : M St A) (k : A -> M St B) s b s'' :
  bind m k s = Ok b s'' -> exists a s', m s = Ok a s' /\ k a s' = Ok b s''.
Proof. unfold bind. destruct (m s) as [a s'|e s'|]; try discriminate. eauto. Qed.

Lemma randrange_Ok a b t v t' : randrange a b t = Ok v t' -> a <= v < b.
Proof.
  unfold randrange. case_decide as Hab; [discriminate|].
  destruct t as [|r t]; [discriminate|]. intros [= <- _].
  pose proof (Z.mod_pos_bound r (b - a)). lia.
Qed.

Lemma choice_01_Ok t v t' : choice [0; 1] t = Ok v t' -> v = 0 \/ v = 1.
Proof.
  unfold choice. destruct t as [|r t]; [discriminate|]. intros [= <- _].
  destruct (Z.to_nat _) as [|[|[|n]]]; auto.
Qed.

Lemma lift_exn_Ok {A} (r : exn + A) t a t' : lift_exn r t = Ok a t' -> r = inr a.
Proof. destruct r; simpl; [discriminate|]. unfold ret. by intros [= <- _]. Qed.

Lemma near_some_ship_false ships new_ship :
  near_some_ship ships new_ship = false ->
  forall s, s ∈ ships -> is_near_ship s new_ship = false.
Proof.
  induction ships as [|a ships IH]; simpl; intros H s Hs.
  - by apply elem_of_nil in Hs.
  - destruct (is_near_ship a new_ship) eqn:Ha; [discriminate|].
    apply elem_of_cons in Hs as [->|Hs]; [done|by apply IH].
Qed.

(** What a returning run of the placement loop has done: it has appended
    one ship, built from a start cell on the board and an end cell on the
    board [len - 1] cells to its right or above it, near none of the ships
    placed before. *)
Lemma place_ship_Ok fuel width height len ships t ships' t' :
  place_ship fuel width height len ships t = Ok ships' t' ->
  exists new_ship x y end_coordinate,
    ships' = ships ++ [new_ship]
    /\ Ship_init (x, y) end_coordinate = inr new_ship
    /\ (1 <= x <= width) /\ (1 <= y <= height)
    /\ (end_coordinate = (x + len - 1, y) \/ end_coordinate = (x, y + len - 1))
    /\ (1 <= end_coordinate.1 <= width) /\ (1 <= end_coordinate.2 <= height)
    /\ near_some_ship ships new_ship = false.
Proof.
  revert t. induction fuel as [|fuel IH]; intros t; [discriminate|].
  intros H. cbn [place_ship] in H.
  apply bind_Ok in H as (x & t1 & Hx & H). apply randrange_Ok in Hx.
  apply bind_Ok in H as (y & t2 & Hy & H). apply randrange_Ok in Hy.
  apply bind_Ok in H as (hz & t3 & Hh & H). apply choice_01_Ok in Hh.
  cbv zeta in H. cbn [fst snd] in H.
  remember (if negb (bool_decide (hz = 0)) then (x + len - 1, y) else (x, y + len - 1))
    as end_coordinate eqn:Hend.
  assert (end_coordinate = (x + len - 1, y) \/ end_coordinate = (x, y + len - 1)) as Hor.
  { destruct Hh as [-> | ->]; simpl in Hend; auto. }
  match type of H with
  | (if negb ?b then _ else _) _ = _ => destruct b eqn:Hb
  end; cbn [negb] in H; [|by eapply IH].
  apply andb_true_iff in Hb as [Hb1 Hb2].
  apply andb_true_iff in Hb1 as [Hb1 Hb1'], Hb2 as [Hb2 Hb2'].
  apply bool_decide_eq_true in Hb1, Hb1', Hb2, Hb2'.
  apply bind_Ok in H as (new_ship & t4 & Hnew & H). apply lift_exn_Ok in Hnew.
  assert (ret (ships ++ [new_ship]) t4 = Ok ships' t' ->
          near_some_ship ships new_ship = false ->
          exists new_ship x y end_coordinate,
            ships' = ships ++ [new_ship]
            /\ Ship_init (x, y) end_coordinate = inr new_ship
            /\ (1 <= x <= width) /\ (1 <= y <= height)
            /\ (end_coordinate = (x + len - 1, y) \/ end_coordinate = (x, y + len - 1))
            /\ (1 <= end_coordinate.1 <= width) /\ (1 <= end_coordinate.2 <= height)
            /\ near_some_ship ships new_ship = false) as Hdone.
  { unfold ret. intros [= <- _] Hfar. exists new_ship, x, y, end_coordinate.
    repeat split; try done; lia. }
  destruct (negb (bool_decide (List.length ships = 0%nat))) eqn:He.
  - destruct (near_some_ship ships new_ship) eqn:Hn; [by eapply IH|by apply Hdone].
  - apply negb_false_iff, bool_decide_eq_true in He.
    destruct ships; [|discriminate]. by apply Hdone.
Qed.

Lemma generate_default_fleet :
  generate_ships (ShipFactory_init None None) default_draws = Ok default_fleet [].
Proof. vm_compute. reflexivity. Defined.

Lemma generate_length_0 :
  generate_ships factory_length_0 [1; 0; 1]
  = Ok [mkShip 1 1 2 1 {[ (1, 1); (2, 1) ]} ∅] [].
Proof. vm_compute. reflexivity. Defined.

Lemma fleet_inv_nil width height : fleet_inv width height [].
Proof.
  split.
  - intros s Hs. by apply elem_of_nil in Hs.
  - intros s Hs. by apply elem_of_nil in Hs.
  - intros i j s1 s2 _ H. by rewrite lookup_nil in H.
Qed.

(** Appending a ship built by the constructor, on the board and near none
    of the ships of the list, keeps the invariant. *)
Lemma fleet_inv_snoc width height ships new_ship start end_ :
  fleet_inv width height ships ->
  Ship_init start end_ = inr new_ship ->
  (1 <= start.1 <= width) -> (1 <= start.2 <= height) ->
  (1 <= end_.1 <= width) -> (1 <= end_.2 <= height) ->
  near_some_ship ships new_ship = false ->
  fleet_inv width height (ships ++ [new_ship]).
Proof.
  intros [F1 F2 F3] Hnew Hsx Hsy Hex Hey Hfar.
  pose proof (Ship_init_inv _ _ _ Hnew) as Hinv.
  apply Ship_init_fields in Hnew as (Hxs & Hxe & Hys & Hye & _).
  assert (ship_on_board width height new_ship) as Hboard.
  { intros c Hc. apply (inv_cells _ Hinv) in Hc. lia. }
  split.
  - intros s Hs. apply elem_of_app in Hs as [Hs|Hs]; [by apply F1|].
    apply list_elem_of_singleton in Hs. by subst.
  - intros s Hs. apply elem_of_app in Hs as [Hs|Hs]; [by apply F2|].
    apply list_elem_of_singleton in Hs. by subst.
  - intros i j s1 s2 Hij H1 H2.
    pose proof (lookup_lt_Some _ _ _ H2) as Hj.
    rewrite length_app in Hj. simpl in Hj.
    destruct (decide (j < List.length ships)%nat) as [Hlt|Hge].
    + rewrite lookup_app_l in H1 by lia. rewrite lookup_app_l in H2 by lia.
      exact (F3 i j s1 s2 Hij H1 H2).
    + rewrite lookup_app_l in H1 by lia.
      rewrite lookup_app_r in H2 by lia.
      replace (j - List.length ships)%nat with 0%nat in H2 by lia.
      simpl in H2. injection H2 as <-.
      apply list_elem_of_lookup_2 in H1.
      intros Hnear. apply (is_near_ship_true s1 (F1 _ H1) new_ship) in Hnear.
      by rewrite (near_some_ship_false _ _ Hfar s1 H1) in Hnear.
Qed.

Lemma place_ship_inv fuel width height len ships t ships' t' :
  fleet_inv width height ships ->
  place_ship fuel width height len ships t = Ok ships' t' ->
  fleet_inv width height ships'
  /\ Ship_length <$> ships' = (Ship_length <$> ships) ++ [placed_length len].
Proof.
  intros Hinv H.
  apply place_ship_Ok in H
    as (new_ship & x & y & e & -> & Hnew & Hx & Hy & He & Hex & Hey & Hfar).
  split.
  - by apply (fleet_inv_snoc width height ships new_ship (x, y) e).
  - rewrite fmap_app. simpl. do 2 f_equal.
    rewrite (Ship_length_inv _ (Ship_init_inv _ _ _ Hnew)).
    apply Ship_init_fields in Hnew as (-> & -> & -> & -> & _).
    unfold placed_length. destruct He as [-> | ->]; simpl; lia.
Qed.

Lemma place_ships_inv numbers width height len ships t ships' t' :
  fleet_inv width height ships ->
  place_ships numbers width height len ships t = Ok ships' t' ->
  fleet_inv width height ships'
  /\ Ship_length <$> ships'
     = (Ship_length <$> ships) ++ replicate (List.length numbers) (placed_length len).
Proof.
  revert ships t. induction numbers as [|n numbers IH]; intros ships t Hinv; simpl.
  - unfold ret. intros [= <- _]. by rewrite app_nil_r.
  - intros H. apply bind_Ok in H as (ships1 & t1 & H1 & H).
    apply place_ship_inv in H1 as [Hinv1 Hl1]; [|done].
    apply IH in H as [Hinv' Hl']; [|done]. split; [done|].
    by rewrite Hl', Hl1, <- app_assoc.
Qed.

Lemma place_fleet_inv items width height ships t ships' t' :
  fleet_inv width height ships ->
  place_fleet items width height ships t = Ok ships' t' ->
  fleet_inv width height ships'
  /\ Ship_length <$> ships' = (Ship_length <$> ships) ++ fleet_lengths items.
Proof.
  revert ships t. induction items as [|[len count] items IH]; intros ships t Hinv; simpl.
  - unfold ret. intros [= <- _]. by rewrite app_nil_r.
  - intros H. apply bind_Ok in H as (ships1 & t1 & H1 & H).
    apply place_ships_inv in H1 as [Hinv1 Hl1]; [|done].
    apply IH in H as [Hinv' Hl']; [|done]. split; [done|].
    rewrite Hl', Hl1, <- app_assoc. do 2 f_equal.
    rewrite length_range. f_equal. lia.
Qed.

Lemma generate_ships_inv f t ships t' :
  generate_ships f t = Ok ships t' ->
  fleet_inv (board_size f).1 (board_size f).2 ships
  /\ Ship_length <$> ships = fleet_lengths (ships_per_length f).
Proof.
  unfold generate_ships. destruct (board_size f) as [width height]. simpl.
  intros H. apply place_fleet_inv in H; [done|]. apply fleet_inv_nil.
Qed.

Lemma ships_of_length_occurrences l ships :
  ships_of_length l ships = occurrences l (Ship_length <$> ships).
Proof. induction ships as [|s ships IH]; simpl; [done|]. by rewrite IH. Qed.

Lemma occurrences_app l a b :
  occurrences l (a ++ b) = (occurrences l a + occurrences l b)%nat.
Proof. induction a as [|x a IH]; simpl; [done|]. rewrite IH. lia. Qed.

Lemma occurrences_replicate l n v :
  occurrences l (replicate n v) = if decide (v = l) then n else 0%nat.
Proof.
  induction n as [|n IH]; simpl.
  - by case_decide.
  - rewrite IH. case_decide; lia.
Qed.

Lemma occurrences_fleet_lengths_absent l items :
  (forall len count, (len, count) ∈ items -> 1 <= len) ->
  l ∉ items.*1 -> occurrences l (fleet_lengths items) = 0%nat.
Proof.
  induction items as [|[len count] items IH]; intros Hpos Hl; simpl; [done|].
  rewrite occurrences_app, occurrences_replicate.
  rewrite IH.
  - case_decide as E; [|done]. exfalso.
    specialize (Hpos len count ltac:(left)). unfold placed_length in E.
    assert (len = l) as -> by lia. apply Hl. simpl. left.
  - intros len' count' H. apply (Hpos len' count'). by right.
  - intros H. apply Hl. simpl. by right.
Qed.

Lemma occurrences_fleet_lengths l c items :
  NoDup items.*1 ->
  (forall len count, (len, count) ∈ items -> 1 <= len) ->
  (l, c) ∈ items ->
  occurrences l (fleet_lengths items) = Z.to_nat c.
Proof.
  induction items as [|[len count] items IH]; intros Hnd Hpos Hin.
  - by apply elem_of_nil in Hin.
  - simpl in Hnd. apply NoDup_cons in Hnd as [Hfresh Hnd]. simpl.
    rewrite occurrences_app, occurrences_replicate.
    assert (forall len' count', (len', count') ∈ items -> 1 <= len') as Hpos'.
    { intros len' count' H. apply (Hpos len' count'). by right. }
    apply elem_of_cons in Hin as [[= -> ->]|Hin].
    + rewrite occurrences_fleet_lengths_absent by done.
      specialize (Hpos len count ltac:(left)). unfold placed_length.
      case_decide; lia.
    + rewrite IH by done. case_decide as E; [|done]. exfalso. apply Hfresh.
      specialize (Hpos len count ltac:(left)). unfold placed_length in E.
      assert (len = l) as -> by lia.
      apply (list_elem_of_fmap_2 fst items (l, c)). done.
Qed.

(** One iteration of the placement loop on three draws: the candidate is
    always a ship (its two cells share a coordinate); it is appended when
    its end cell is on the board and it is near no ship placed before, and
    the loop goes round again otherwise. *)
Lemma place_ship_step fuel width height len ships rx ry rc t :
  1 <= width -> 1 <= height ->
  let x := 1 + rx `mod` (width + 1 - 1) in
  let y := 1 + ry `mod` (height + 1 - 1) in
  let end_coordinate :=
    if decide (rc `mod` 2 = 0) then (x, y + len - 1) else (x + len - 1, y) in
  exists new_ship,
    Ship_init (x, y) end_coordinate = inr new_ship
    /\ place_ship (S fuel) width height len ships (rx :: ry :: rc :: t)
       = if decide ((1 <= end_coordinate.1 <= width) /\ (1 <= end_coordinate.2 <= height))
         then if near_some_ship ships new_ship
              then place_ship fuel width height len ships t
              else Ok (ships ++ [new_ship]) t
         else place_ship fuel width height len ships t.
Proof.
  intros Hw Hh x y end_coordinate.
  destruct (Ship_init_result (x, y) end_coordinate) as [(Hx & Hy & _)|(_ & new_ship & Hnew)].
  { exfalso. subst end_coordinate. case_decide; simpl in *; lia. }
  exists new_ship. split; [done|].
  cbn [place_ship]. unfold bind at 1. unfold randrange at 1.
  rewrite decide_False by lia.
  unfold bind at 1. unfold randrange at 1. rewrite decide_False by lia.
  unfold bind at 1. unfold choice at 1.
  change (Z.of_nat (List.length [0; 1])) with 2.
  assert (nth (Z.to_nat (rc `mod` 2)) [0; 1] 0 = if decide (rc `mod` 2 = 0) then 0 else 1)
    as ->.
  { pose proof (Z.mod_pos_bound rc 2).
    assert (rc `mod` 2 = 0 \/ rc `mod` 2 = 1) as [->| ->] by lia; done. }
  cbv zeta. cbn [fst snd]. fold x y.
  assert ((if negb (bool_decide ((if decide (rc `mod` 2 = 0) then 0 else 1) = 0))
           then (x + len - 1, y) else (x, y + len - 1)) = end_coordinate) as ->.
  { subst end_coordinate. by case_decide. }
  case_decide as Hb.
  - rewrite !bool_decide_eq_true_2 by lia. cbn [andb negb].
    unfold bind at 1. rewrite Hnew. cbn [lift_exn]. unfold ret at 1.
    destruct ships as [|s0 ships]; [done|]. cbn [List.length bool_decide negb].
    rewrite bool_decide_eq_false_2 by done. cbn [negb].
    by destruct (near_some_ship _ _).
  - match goal with
    | |- (if negb ?b then _ else _) _ = _ => destruct b eqn:E
    end; [|done].
    exfalso. apply Hb.
    apply andb_true_iff in E as [E1 E2].
    apply andb_true_iff in E1 as [E1 E1'], E2 as [E2 E2'].
    apply bool_decide_eq_true in E1, E1', E2, E2'. lia.
Qed.

Lemma place_ship_short fuel width height len ships t :
  1 <= width -> 1 <= height -> (List.length t < 3)%nat ->
  place_ship fuel width height len ships t = OutOfDraws.
Proof.
  intros Hw Hh Ht. destruct fuel as [|fuel]; [done|].
  cbn [place_ship]. unfold bind, randrange, choice.
  destruct t as [|a [|b [|c t]]]; simpl in Ht; try lia;
    rewrite ?decide_False by lia; done.
Qed.

Lemma Ship_init_1_1_1_1 : Ship_init (1, 1) (1, 1) = inr ship_1_1_1_1.
Proof. vm_compute. reflexivity. Qed.

(** On a board of one cell every candidate is the ship at (1,1). *)
Lemma place_ship_one_cell fuel ships rx ry rc t :
  place_ship (S fuel) 1 1 1 ships (rx :: ry :: rc :: t)
  = if near_some_ship ships ship_1_1_1_1
    then place_ship fuel 1 1 1 ships t
    else Ok (ships ++ [ship_1_1_1_1]) t.
Proof.
  destruct (place_ship_step fuel 1 1 1 ships rx ry rc t) as (new_ship & Hnew & ->); [lia..|].
  change (1 + 1 - 1) with 1 in *. rewrite !Z.mod_1_r in Hnew |- *.
  change (1 + 0 + 1 - 1) with 1 in *. change (1 + 0) with 1 in *.
  destruct (decide (rc `mod` 2 = 0));
    rewrite Ship_init_1_1_1_1 in Hnew; injection Hnew as <-;
    by rewrite decide_True by (simpl; lia).
Qed.

Lemma place_ship_crowded fuel t :
  place_ship fuel 1 1 1 [ship_1_1_1_1] t = OutOfDraws.
Proof.
  revert t. induction fuel as [|fuel IH]; intros t; [done|].
  destruct t as [|rx [|ry [|rc t]]]; try (apply place_ship_short; simpl; lia).
  rewrite place_ship_one_cell.
  assert (near_some_ship [ship_1_1_1_1] ship_1_1_1_1 = true) as ->
    by (vm_compute; reflexivity).
  apply IH.
Qed.

Lemma generate_ships_crowded t : generate_ships factory_crowded t = OutOfDraws.
Proof.
  unfold generate_ships, factory_crowded. cbn [board_size ships_per_length place_fleet].
  change (range 1 (2 + 1)) with [1; 2]. cbn [place_ships].
  unfold bind at 1. unfold bind at 1. unfold place_ship_loop at 1.
  destruct t as [|rx [|ry [|rc t]]]; try (by rewrite place_ship_short by (simpl; lia)).
  rewrite place_ship_one_cell. cbn [near_some_ship app].
  unfold bind at 1. unfold place_ship_loop. by rewrite place_ship_crowded.
Qed.

(** With the default factory and every draw equal to 0, the first ship is
    placed at (1,1) and every candidate for the second one is the ship
    from (1,1) to (1,2). *)
Lemma place_ship_all_zero fuel m :
  place_ship fuel 10 10 2 [ship_1_1_1_1] (replicate m 0) = OutOfDraws.
Proof.
  revert m. induction fuel as [|fuel IH]; intros m; [done|].
  destruct m as [|[|[|m]]];
    try (apply place_ship_short; rewrite ?length_replicate; simpl; lia).
  cbn [replicate].
  destruct (place_ship_step fuel 10 10 2 [ship_1_1_1_1] 0 0 0 (replicate m 0))
    as (new_ship & Hnew & ->); [lia..|].
  vm_compute in Hnew. injection Hnew as <-.
  rewrite decide_True by (vm_compute; intuition discriminate).
  match goal with
  | |- (if ?b then _ else _) = _ => assert (b = true) as -> by (vm_compute; reflexivity)
  end.
  apply IH.
Qed.

Lemma first_draws_zero n : first_draws (fun _ => 0) n = replicate n 0.
Proof.
  unfold first_draws. generalize 0%nat.
  induction n as [|n IH]; intros k; simpl; [done|]. by rewrite IH.
Qed.

Lemma generate_ships_all_zero m :
  generate_ships (ShipFactory_init None None) (replicate m 0) = OutOfDraws.
Proof.
  unfold generate_ships, ShipFactory_init, default_ships_per_length.
  cbn [default board_size ships_per_length place_fleet].
  change (range 1 (1 + 1)) with [1]. cbn [place_ships].
  unfold bind at 1. unfold bind at 1. unfold place_ship_loop at 1.
  destruct m as [|[|[|m]]];
    try (by rewrite place_ship_short by (rewrite ?length_replicate; simpl; lia)).
  cbn [replicate].
  destruct (place_ship_step (S (S (S (List.length (replicate m 0))))) 10 10 1 []
              0 0 0 (replicate m 0))
    as (new_ship & Hnew & E); [lia..|].
  vm_compute in Hnew. injection Hnew as <-.
  cbn [List.length]. rewrite E. rewrite decide_True by (vm_compute; intuition discriminate).
  cbn [near_some_ship app]. unfold ret at 1.
  unfold bind at 1. unfold bind at 1. unfold place_ship_loop at 1.
  by rewrite (place_ship_all_zero _ m).
Qed.

(** * The claims about [ShipFactory] *)

(** C8. The placement loop has no bound on its iterations: asked for two
    one-cell ships on a board of one cell, it is still running after any
    number of draws, whatever the draws are; and even the default factory
    never returns on the sequence of draws that is 0 everywhere. *)
Theorem generate_ships_may_not_terminate :
  (exists (f : ShipFactory) (draws : nat -> Z),
     forall n, generate_ships f (first_draws draws n) = OutOfDraws)
  /\ (forall (draws : nat -> Z) (n : nat),
        generate_ships factory_crowded (first_draws draws n) = OutOfDraws)
  /\ (forall n : nat,
        generate_ships (ShipFactory_init None None) (first_draws (fun _ => 0) n)
        = OutOfDraws).
Proof.
  split; [|split].
  - exists factory_crowded, (fun _ => 0). intros n. apply generate_ships_crowded.
  - intros draws n. apply generate_ships_crowded.
  - intros n. rewrite first_draws_zero. apply generate_ships_all_zero.
Qed.

(** C1, as amended. Whenever [generate_ships] returns, for every board
    and every mapping: every cell of every ship is on the board, and no
    cell of a ship is within Chebyshev distance 1 of a cell of another
    one. When moreover the lengths of the mapping are all at least 1, the
    list has for each entry (length, count) exactly [count] ships of that
    [length()] (none when [count] is negative). With the default mapping
    the lengths of the ships are 1, 2, 3, 4, 5, and on a 10x10 board there
    are draws on which it does return. *)
Theorem generate_ships_fleet (f : ShipFactory) (t : tape) (ships : list Ship) (t' : tape)
    (Hret : generate_ships f t = Ok ships t') :
  (NoDup (ships_per_length f).*1 ->
   (forall len count, (len, count) ∈ ships_per_length f -> 1 <= len) ->
   forall len count, (len, count) ∈ ships_per_length f ->
     Z.of_nat (ships_of_length len ships) = Z.max 0 count
     /\ (0 <= count -> Z.of_nat (ships_of_length len ships) = count))
  /\ (forall s c, s ∈ ships -> c ∈ cells s ->
        (1 <= c.1 <= (board_size f).1) /\ (1 <= c.2 <= (board_size f).2))
  /\ (forall i j s1 s2, i <> j -> ships !! i = Some s1 -> ships !! j = Some s2 ->
        forall c1 c2, c1 ∈ cells s1 -> c2 ∈ cells s2 -> 1 < chebyshev c1 c2)
  /\ (ships_per_length f = default_ships_per_length ->
        Ship_length <$> ships = [1; 2; 3; 4; 5])
  /\ (exists draws fleet rest,
        generate_ships (ShipFactory_init None None) draws = Ok fleet rest).
Proof.
  apply generate_ships_inv in Hret as [[F1 F2 F3] Hl].
  split; [|split; [|split; [|split]]].
  - intros Hkeys Hlen len count Hin.
    rewrite ships_of_length_occurrences, Hl.
    rewrite (occurrences_fleet_lengths len count) by done. lia.
  - intros s c Hs Hc. by apply (F2 s Hs c).
  - intros i j s1 s2 Hij H1 H2 c1 c2 Hc1 Hc2.
    destruct (Z.lt_ge_cases 1 (chebyshev c1 c2)) as [|Hnear]; [done|]. exfalso.
    destruct (decide (i < j)%nat) as [Hlt|Hge].
    + apply (F3 i j s1 s2 Hlt H1 H2). exists c1, c2. repeat split; [done..|lia].
    + apply (F3 j i s2 s1 ltac:(lia) H2 H1). exists c2, c1.
      rewrite chebyshev_sym. repeat split; [done..|lia].
  - intros E. rewrite Hl, E. reflexivity.
  - exists default_draws, default_fleet, []. exact generate_default_fleet.
Qed.

Lemma generate_ships_fleet_witness :
  Z.of_nat (ships_of_length 3 default_fleet) = 1
  /\ Ship_length <$> default_fleet = [1; 2; 3; 4; 5].
Proof.
  assert (NoDup (ships_per_length (ShipFactory_init None None)).*1) as Hkeys.
  { simpl. unfold default_ships_per_length. simpl.
    repeat (apply NoDup_cons; split; [rewrite ?elem_of_cons, elem_of_nil; lia|]).
    apply NoDup_nil_2. }
  assert (forall len count,
            (len, count) ∈ ships_per_length (ShipFactory_init None None) -> 1 <= len) as Hlen.
  { intros len count Hin. simpl in Hin. unfold default_ships_per_length in Hin.
    repeat (apply elem_of_cons in Hin as [[= -> ->]|Hin]; [lia|]).
    by apply elem_of_nil in Hin. }
  pose proof (generate_ships_fleet (ShipFactory_init None None) default_draws
                default_fleet [] generate_default_fleet)
    as (Hcount & _ & _ & Hdefault & _).
  split.
  - apply (Hcount Hkeys Hlen 3 1); [|lia]. simpl. unfold default_ships_per_length.
    do 2 right. left.
  - by apply Hdefault.
Defined.

(** C1, the claim as written fails: asked for one ship of length 0 on a
    10x10 board, with draws that give the start cell (2,1) and the
    horizontal direction, the end cell is (1,1) and the list returned holds
    one ship of two cells, none of length 0. *)
Lemma generate_ships_length_0_counterexample :
  ~ (forall f t ships t',
       NoDup (ships_per_length f).*1 ->
       generate_ships f t = Ok ships t' ->
       forall len count, (len, count) ∈ ships_per_length f ->
         Z.of_nat (ships_of_length len ships) = count).
Proof.
  intros H.
  specialize (H factory_length_0 [1; 0; 1] _ [] ltac:(apply NoDup_singleton)
                generate_length_0 0 1 ltac:(left)).
  vm_compute in H. discriminate H.
Qed.

(** * Further properties of [Ship] *)

(** X1. The order of the two cells given to the constructor does not
    matter: both orders give the same ship, or both raise. *)
Theorem Ship_init_order (start end_ : cell) : Ship_init start end_ = Ship_init end_ start.
Proof.
  destruct start as [x0 y0], end_ as [x1 y1]. unfold Ship_init.
  by rewrite (Z.min_comm x0 x1), (Z.max_comm x0 x1), (Z.min_comm y0 y1), (Z.max_comm y0 y1).
Qed.

(** X2. The cells of a ship built from two cells are exactly the cells of
    the segment between them, both ends included. *)
Theorem Ship_init_cells (start end_ : cell) (s : Ship)
    (Hs : Ship_init start end_ = inr s) (c : cell) :
  c ∈ cells s
  <-> (Z.min start.1 end_.1 <= c.1 <= Z.max start.1 end_.1)
      /\ (Z.min start.2 end_.2 <= c.2 <= Z.max start.2 end_.2).
Proof.
  rewrite (inv_cells _ (Ship_init_inv _ _ _ Hs)).
  apply Ship_init_fields in Hs as (-> & -> & -> & -> & _). done.
Qed.

Lemma Ship_init_cells_witness :
  (4, 3) ∈ cells ship_3_3_5_3
  <-> (Z.min 5 3 <= 4 <= Z.max 5 3) /\ (Z.min 3 3 <= 3 <= Z.max 3 3).
Proof.
  refine (Ship_init_cells (5, 3) (3, 3) ship_3_3_5_3 _ (4, 3)).
  vm_compute. reflexivity.
Defined.

(** X3. [length()] of a ship built from two cells is the number of its
    cells, one more than the distance between the two cells, and at
    least 1. *)
Theorem Ship_length_init (start end_ : cell) (s : Ship)
    (Hs : Ship_init start end_ = inr s) :
  Ship_length s = Z.of_nat (size (cells s))
  /\ Ship_length s = Z.abs (end_.1 - start.1) + Z.abs (end_.2 - start.2) + 1
  /\ 1 <= Ship_length s.
Proof.
  pose proof (Ship_init_inv _ _ _ Hs) as Hinv.
  rewrite (Ship_length_inv s Hinv), (inv_size _ Hinv).
  pose proof (inv_line _ Hinv) as Hline.
  apply Ship_init_fields in Hs as (Hxs & Hxe & Hys & Hye & _).
  rewrite Hxs, Hxe, Hys, Hye in *. lia.
Qed.

Lemma Ship_length_init_witness :
  Ship_length ship_4_1_4_5 = Z.of_nat (size (cells ship_4_1_4_5))
  /\ Ship_length ship_4_1_4_5 = Z.abs (4 - 4) + Z.abs (5 - 1) + 1
  /\ 1 <= Ship_length ship_4_1_4_5.
Proof.
  refine (Ship_length_init (4, 1) (4, 5) ship_4_1_4_5 _).
  vm_compute. reflexivity.
Defined.

(** X4. On a constructed ship [is_near_cell] gives the same answer as its
    first version, the test against the bounding box of the ship widened
    by one cell. *)
Theorem is_near_cell_box_eq (s : Ship) (c : cell) (Hs : constructed s) :
  is_near_cell s c = Some (is_near_cell_box s c).
Proof.
  apply constructed_inv in Hs. rewrite (is_near_cell_scan s Hs). f_equal.
  apply Bool.eq_true_iff_eq. rewrite scan_cells_true.
  unfold is_near_cell_box. rewrite !andb_true_iff, !bool_decide_eq_true.
  destruct Hs as [_ Hx Hy Hc _]. split.
  - intros (o & Ho & Hd). apply elem_of_elements, Hc in Ho.
    unfold chebyshev in Hd. lia.
  - intros H.
    exists (Z.max (x_start s) (Z.min (x_end s) c.1), Z.max (y_start s) (Z.min (y_end s) c.2)).
    split.
    + apply elem_of_elements, Hc. simpl. lia.
    + unfold chebyshev. simpl. lia.
Qed.

Lemma is_near_cell_box_eq_witness :
  is_near_cell ship_3_3_5_3 (6, 4) = Some (is_near_cell_box ship_3_3_5_3 (6, 4)).
Proof.
  refine (is_near_cell_box_eq ship_3_3_5_3 (6, 4) _).
  exact (constructed_init (3, 3) (5, 3) _ Ship_init_3_3_5_3).
Defined.

(** Two intervals that overlap or touch have points at distance at most 1. *)
Lemma intervals_touch (a1 b1 a2 b2 : Z) :
  a1 <= b1 -> a2 <= b2 -> a1 - 1 <= b2 -> a2 - 1 <= b1 ->
  exists u v, (a1 <= u <= b1) /\ (a2 <= v <= b2) /\ Z.abs (u - v) <= 1.
Proof.
  intros H1 H2 H3 H4.
  destruct (Z_lt_le_dec b1 a2) as [Hlt|Hle].
  - exists b1, a2. lia.
  - destruct (Z_lt_le_dec b2 a1) as [Hlt'|Hle'].
    + exists a1, b2. lia.
    + destruct (Z_lt_le_dec a1 a2) as [Ha|Ha].
      * exists a2, a2. lia.
      * exists a1, a1. lia.
Qed.

(** X5. Two constructed ships are near each other exactly when their
    bounding boxes overlap or touch, corners included. *)
Theorem is_near_ship_boxes (s1 s2 : Ship) (H1 : constructed s1) (H2 : constructed s2) :
  is_near_ship s1 s2 = boxes_touch s1 s2.
Proof.
  apply constructed_inv in H1, H2.
  apply Bool.eq_true_iff_eq. rewrite (is_near_ship_true s1 H1).
  unfold boxes_touch, near_ships. rewrite !andb_true_iff, !bool_decide_eq_true.
  destruct H1 as [_ Hx1 Hy1 Hc1 _], H2 as [_ Hx2 Hy2 Hc2 _]. split.
  - intros ([u1 v1] & [u2 v2] & Hi1 & Hi2 & Hd). apply Hc1 in Hi1. apply Hc2 in Hi2.
    unfold chebyshev in Hd. simpl in *.
    assert (Z.abs (u1 - u2) <= 1) by lia. assert (Z.abs (v1 - v2) <= 1) by lia.
    clear Hd Hc1 Hc2. lia.
  - intros [[Ha Hb] [Hc Hd]].
    destruct (intervals_touch _ _ _ _ Hx1 Hx2 Ha Hb) as (u1 & u2 & Hu1 & Hu2 & Hu).
    destruct (intervals_touch _ _ _ _ Hy1 Hy2 Hc Hd) as (v1 & v2 & Hv1 & Hv2 & Hv).
    exists (u1, v1), (u2, v2). rewrite Hc1, Hc2. unfold chebyshev. simpl.
    split; [done|]. split; [done|]. by apply Z.max_lub.
Qed.

Lemma is_near_ship_boxes_witness :
  is_near_ship ship_3_3_5_3 ship_4_1_4_5 = boxes_touch ship_3_3_5_3 ship_4_1_4_5.
Proof.
  refine (is_near_ship_boxes ship_3_3_5_3 ship_4_1_4_5 _ _).
  - exact (constructed_init (3, 3) (5, 3) _ Ship_init_3_3_5_3).
  - exact (constructed_init (4, 1) (4, 5) _ Ship_init_4_1_4_5).
Defined.

Lemma ship_inv_receive_damage s c : ship_inv s -> ship_inv (receive_damage s c).1.
Proof.
  intros [I1 I2 I3 I4 I5].
  destruct (receive_damage_geometry s c) as (H1 & H2 & H3 & H4 & H5).
  split; rewrite ?H1, ?H2, ?H3, ?H4, ?H5; done.
Qed.

(** The damaged cells after one call. *)
Lemma damaged_receive_damage s c (x : cell) :
  ship_inv s ->
  (x ∈ damaged_cells (receive_damage s c).1
   <-> x ∈ damaged_cells s \/ (x = c /\ c ∈ cells s)).
Proof.
  intros Hs. pose proof (truthy_is_occupying_cell s Hs c) as Ht.
  unfold receive_damage. destruct (truthy (is_occupying_cell s c)); simpl.
  - rewrite elem_of_union, elem_of_singleton. tauto.
  - split; [tauto|]. intros [H|[_ H]]; [done|]. apply Ht in H. discriminate.
Qed.

Lemma has_sunk_subseteq s : has_sunk s = true <-> cells s ⊆ damaged_cells s.
Proof.
  unfold has_sunk. rewrite bool_decide_eq_true, size_empty_iff. split.
  - intros H x Hx. destruct (decide (x ∈ damaged_cells s)) as [|Hn]; [done|].
    exfalso. apply (not_elem_of_empty (C:=gset cell) x). rewrite <- H.
    by apply elem_of_difference.
  - intros H x. split; [|by intros ?%not_elem_of_empty].
    intros [Hx Hn]%elem_of_difference. exfalso. by apply Hn, H.
Qed.

(** X6. The damaged cells of a constructed ship are cells of the ship, so
    the count of damaged cells never exceeds its length. *)
Theorem damaged_cells_subseteq (s : Ship) (Hs : constructed s) :
  damaged_cells s ⊆ cells s /\ 0 <= count_damaged_cells s <= Ship_length s.
Proof.
  assert (damaged_cells s ⊆ cells s) as Hsub.
  { induction Hs as [start end_ s H|s c Hs IH].
    - apply Ship_init_fields in H as (_ & _ & _ & _ & _ & ->). apply empty_subseteq.
    - destruct (receive_damage_geometry s c) as (_ & _ & _ & _ & ->).
      intros x Hx. apply damaged_receive_damage in Hx; [|by apply constructed_inv].
      destruct Hx as [Hx|[-> Hx]]; [by apply IH|done]. }
  split; [done|]. apply constructed_inv in Hs.
  rewrite (Ship_length_inv s Hs), <- (inv_size _ Hs). unfold count_damaged_cells.
  apply subseteq_size in Hsub. lia.
Qed.

Lemma damaged_cells_subseteq_witness :
  damaged_cells (receive_damage ship_3_3_5_3 (4, 3)).1
    ⊆ cells (receive_damage ship_3_3_5_3 (4, 3)).1
  /\ 0 <= count_damaged_cells (receive_damage ship_3_3_5_3 (4, 3)).1
       <= Ship_length (receive_damage ship_3_3_5_3 (4, 3)).1.
Proof.
  refine (damaged_cells_subseteq _ _).
  apply constructed_damage.
  exact (constructed_init (3, 3) (5, 3) _ Ship_init_3_3_5_3).
Defined.

(** X7. A constructed ship has sunk exactly when its damaged cells are all
    its cells, that is when the count of damaged cells equals its length. *)
Theorem has_sunk_iff (s : Ship) (Hs : constructed s) :
  (has_sunk s = true <-> damaged_cells s = cells s)
  /\ (has_sunk s = true <-> count_damaged_cells s = Ship_length s).
Proof.
  destruct (damaged_cells_subseteq s Hs) as [Hsub _].
  apply constructed_inv in Hs.
  rewrite has_sunk_subseteq, (Ship_length_inv s Hs), <- (inv_size _ Hs).
  unfold count_damaged_cells. split; split.
  - intros H. apply set_eq. intros x. split; [apply Hsub|apply H].
  - by intros ->.
  - intros H. f_equal. apply Nat.le_antisymm; by apply subseteq_size.
  - intros H. rewrite (set_subseteq_size_eq _ _ Hsub); [done|lia].
Qed.

Lemma has_sunk_iff_witness :
  (has_sunk (receive_damage ship_3_3_3_3 (3, 3)).1 = true
   <-> damaged_cells (receive_damage ship_3_3_3_3 (3, 3)).1
       = cells (receive_damage ship_3_3_3_3 (3, 3)).1)
  /\ (has_sunk (receive_damage ship_3_3_3_3 (3, 3)).1 = true
      <-> count_damaged_cells (receive_damage ship_3_3_3_3 (3, 3)).1
          = Ship_length (receive_damage ship_3_3_3_3 (3, 3)).1).
Proof.
  refine (has_sunk_iff _ _).
  apply constructed_damage.
  exact (constructed_init (3, 3) (3, 3) _ Ship_init_3_3_3_3).
Defined.

Lemma receive_damages_state s shots :
  ship_inv s ->
  ship_inv (receive_damages s shots)
  /\ cells (receive_damages s shots) = cells s
  /\ forall x, x ∈ damaged_cells (receive_damages s shots)
               <-> x ∈ damaged_cells s \/ (x ∈ shots /\ x ∈ cells s).
Proof.
  unfold receive_damages. revert s.
  induction shots as [|c shots IH]; intros s Hs; simpl.
  - split; [done|]. split; [done|]. intros x. split; [tauto|].
    intros [H|[H _]]; [done|]. by apply elem_of_nil in H.
  - destruct (IH _ (ship_inv_receive_damage s c Hs)) as (Hinv & Hc & Hd).
    destruct (receive_damage_geometry s c) as (_ & _ & _ & _ & Hcells).
    split; [done|]. split; [by rewrite Hc|].
    intros x. rewrite Hd, Hcells, (damaged_receive_damage s c x Hs), elem_of_cons.
    split.
    + intros [[H|[-> H]]|[H1 H2]]; auto.
    + intros [H|[[->|H1] H2]]; auto.
Qed.

(** X8. A new ship is sunk by a sequence of shots exactly when every one
    of its cells is among the shots, in any order, misses and repeated
    shots included; in particular a new ship has not sunk. *)
Theorem receive_damages_sunk (start end_ : cell) (s : Ship) (shots : list cell)
    (Hs : Ship_init start end_ = inr s) :
  (has_sunk (receive_damages s shots) = true <-> forall c, c ∈ cells s -> c ∈ shots)
  /\ has_sunk s = false.
Proof.
  pose proof (Ship_init_inv _ _ _ Hs) as Hinv.
  assert (forall l, has_sunk (receive_damages s l) = true <-> forall c, c ∈ cells s -> c ∈ l)
    as Hiff.
  { intros l. destruct (receive_damages_state s l Hinv) as (_ & Hc & Hd).
    apply Ship_init_fields in Hs as (_ & _ & _ & _ & _ & Hnew).
    rewrite has_sunk_subseteq, Hc. split.
    - intros H c Hin. apply H, Hd in Hin as [Hin|[Hin _]]; [|done].
      rewrite Hnew in Hin. by apply not_elem_of_empty in Hin.
    - intros H c Hin. apply Hd. right. split; [by apply H|done]. }
  split; [apply Hiff|].
  destruct (has_sunk s) eqn:E; [|done]. exfalso.
  pose proof (proj1 (Hiff []) E) as E'.
  apply (elem_of_nil (x_start s, y_start s)), E'.
  apply (inv_cells _ Hinv). simpl.
  pose proof (inv_x _ Hinv). pose proof (inv_y _ Hinv). lia.
Qed.

Lemma receive_damages_sunk_witness :
  (has_sunk (receive_damages ship_3_3_5_3 [(5, 3); (9, 9); (3, 3); (5, 3); (4, 3)]) = true
   <-> forall c, c ∈ cells ship_3_3_5_3 -> c ∈ [(5, 3); (9, 9); (3, 3); (5, 3); (4, 3)])
  /\ has_sunk ship_3_3_5_3 = false.
Proof.
  refine (receive_damages_sunk (3, 3) (5, 3) ship_3_3_5_3 _ _).
  vm_compute. reflexivity.
Defined.

(** X9. [receive_damage] never repairs: on any ship and for any cell no
    damaged cell is lost by a call, and a ship that has sunk stays sunk
    whatever cell is attacked next. *)
Theorem has_sunk_receive_damage (s : Ship) (c : cell) :
  damaged_cells s ⊆ damaged_cells (receive_damage s c).1
  /\ (has_sunk s = true -> has_sunk (receive_damage s c).1 = true).
Proof.
  assert (damaged_cells s ⊆ damaged_cells (receive_damage s c).1) as Hsub.
  { unfold receive_damage. destruct (truthy _); simpl; [|done].
    apply union_subseteq_l. }
  split; [done|]. intros Hs. apply has_sunk_subseteq.
  destruct (receive_damage_geometry s c) as (_ & _ & _ & _ & ->).
  apply has_sunk_subseteq in Hs. by etrans.
Qed.

Lemma has_sunk_receive_damage_witness :
  has_sunk (receive_damage (receive_damage ship_3_3_3_3 (3, 3)).1 (7, 7)).1 = true.
Proof.
  refine (proj2 (has_sunk_receive_damage (receive_damage ship_3_3_3_3 (3, 3)).1 (7, 7)) _).
  vm_compute. reflexivity.
Defined.

(** X10. On a constructed ship [receive_damage] raises the count of
    damaged cells by one when the cell is occupied and was not damaged
    yet, and leaves it as it was otherwise. *)
Theorem count_damaged_cells_receive_damage (s : Ship) (c : cell) (Hs : constructed s) :
  count_damaged_cells (receive_damage s c).1
  = count_damaged_cells s
    + (if bool_decide (c ∈ cells s /\ c ∉ damaged_cells s) then 1 else 0).
Proof.
  apply constructed_inv in Hs.
  pose proof (truthy_is_occupying_cell s Hs c) as Ht.
  unfold receive_damage, count_damaged_cells.
  destruct (truthy (is_occupying_cell s c)); simpl.
  - assert (c ∈ cells s) as Hc by by apply Ht.
    case_bool_decide as Hb.
    + rewrite size_union, size_singleton; [lia|].
      apply disjoint_singleton_r. tauto.
    + assert (c ∈ damaged_cells s) as Hd.
      { destruct (decide (c ∈ damaged_cells s)); [done|]. exfalso. by apply Hb. }
      rewrite (union_comm_L (damaged_cells s)).
      rewrite (subseteq_union_1_L {[c]} (damaged_cells s)); [lia|].
      by apply singleton_subseteq_l.
  - rewrite bool_decide_eq_false_2; [lia|]. intros [Hc _]. apply Ht in Hc. discriminate.
Qed.

Lemma count_damaged_cells_receive_damage_witness :
  count_damaged_cells (receive_damage ship_3_3_5_3 (4, 3)).1
  = count_damaged_cells ship_3_3_5_3
    + (if bool_decide ((4, 3) ∈ cells ship_3_3_5_3 /\ (4, 3) ∉ damaged_cells ship_3_3_5_3)
       then 1 else 0).
Proof.
  refine (count_damaged_cells_receive_damage ship_3_3_5_3 (4, 3) _).
  exact (constructed_init (3, 3) (5, 3) _ Ship_init_3_3_5_3).
Defined.

(** X11. A constructed ship is horizontal or vertical, and it is both
    exactly when it has one cell. *)
Theorem orientation_constructed (s : Ship) (Hs : constructed s) :
  (is_horizontal s = true \/ is_vertical s = true)
  /\ (is_horizontal s = true /\ is_vertical s = true <-> Ship_length s = 1).
Proof.
  apply constructed_inv in Hs. rewrite (Ship_length_inv s Hs).
  destruct Hs as [I1 I2 I3 _ _]. unfold is_horizontal, is_vertical.
  rewrite is_horizontal_at_true, is_vertical_at_true. split; [done|]. lia.
Qed.

Lemma orientation_constructed_witness :
  (is_horizontal ship_3_3_3_3 = true \/ is_vertical ship_3_3_3_3 = true)
  /\ (is_horizontal ship_3_3_3_3 = true /\ is_vertical ship_3_3_3_3 = true
      <-> Ship_length ship_3_3_3_3 = 1).
Proof.
  refine (orientation_constructed ship_3_3_3_3 _).
  exact (constructed_init (3, 3) (3, 3) _ Ship_init_3_3_3_3).
Defined.

(** X12. Every cell a constructed ship occupies is near it, and every
    constructed ship is near itself and near any ship it shares a cell
    with. *)
Theorem occupied_is_near (s other_ship : Ship) (c : cell)
    (Hs : constructed s) (Hc : is_occupying_cell s c = Some true) :
  is_near_cell s c = Some true
  /\ is_near_ship s s = true
  /\ (c ∈ cells other_ship -> is_near_ship s other_ship = true).
Proof.
  apply constructed_inv in Hs.
  apply (is_occupying_cell_true s Hs) in Hc.
  assert (chebyshev c c <= 1) as Hd by (unfold chebyshev; lia).
  split; [|split].
  - pose proof (truthy_is_near_cell s Hs c) as Ht.
    rewrite (is_near_cell_scan s Hs) in *. simpl in Ht. f_equal. apply Ht. by exists c.
  - apply (is_near_ship_true s Hs). by exists c, c.
  - intros Ho. apply (is_near_ship_true s Hs). by exists c, c.
Qed.

Lemma occupied_is_near_witness :
  is_near_cell ship_3_3_5_3 (4, 3) = Some true
  /\ is_near_ship ship_3_3_5_3 ship_3_3_5_3 = true
  /\ ((4, 3) ∈ cells ship_4_1_4_5 -> is_near_ship ship_3_3_5_3 ship_4_1_4_5 = true).
Proof.
  refine (occupied_is_near ship_3_3_5_3 ship_4_1_4_5 (4, 3) _ _).
  - exact (constructed_init (3, 3) (5, 3) _ Ship_init_3_3_5_3).
  - vm_compute. reflexivity.
Defined.

(** * Further properties of [ShipFactory] *)

Lemma bind_Raised {St A B} (m : M St A) (k : A -> M St B) s e s'' :
  bind m k s = Raised e s'' ->
  m s = Raised e s'' \/ exists a s', m s = Ok a s' /\ k a s' = Raised e s''.
Proof.
  unfold bind. destruct (m s) as [a s'|e' s'|]; try discriminate.
  - right. eauto.
  - intros [= -> ->]. by left.
Qed.

Lemma place_ship_not_Raised fuel width height len ships t e t' :
  1 <= width -> 1 <= height ->
  place_ship fuel width height len ships t <> Raised e t'.
Proof.
  intros Hw Hh. revert t. induction fuel as [|fuel IH]; intros t; [done|].
  destruct t as [|rx [|ry [|rc t]]];
    try (rewrite place_ship_short by (simpl; lia); discriminate).
  destruct (place_ship_step fuel width height len ships rx ry rc t Hw Hh)
    as (new_ship & _ & ->).
  case_decide; [|apply IH]. destruct (near_some_ship ships new_ship); [apply IH|discriminate].
Qed.

Lemma place_ships_not_Raised numbers width height len ships t e t' :
  1 <= width -> 1 <= height ->
  place_ships numbers width height len ships t <> Raised e t'.
Proof.
  intros Hw Hh. revert ships t.
  induction numbers as [|n numbers IH]; intros ships t; simpl; [discriminate|].
  intros H. apply bind_Raised in H as [H|(ships1 & t1 & _ & H)].
  - by apply place_ship_not_Raised in H.
  - by apply IH in H.
Qed.

Lemma place_fleet_not_Raised items width height ships t e t' :
  1 <= width -> 1 <= height ->
  place_fleet items width height ships t <> Raised e t'.
Proof.
  intros Hw Hh. revert ships t.
  induction items as [|[len count] items IH]; intros ships t; simpl; [discriminate|].
  intros H. apply bind_Raised in H as [H|(ships1 & t1 & _ & H)].
  - by apply place_ships_not_Raised in H.
  - by apply IH in H.
Qed.

(** X13. On a board with at least one column and one row [generate_ships]
    raises nothing, whatever the mapping and the draws: the constructor is
    only given cells that share a coordinate. *)
Theorem generate_ships_not_Raised (f : ShipFactory) (t : tape)
    (Hw : 1 <= (board_size f).1) (Hh : 1 <= (board_size f).2) :
  forall e t', generate_ships f t <> Raised e t'.
Proof.
  intros e t'. unfold generate_ships. destruct (board_size f) as [width height].
  by apply place_fleet_not_Raised.
Qed.

Lemma generate_ships_not_Raised_witness :
  generate_ships (ShipFactory_init None None) [0; 0; 0; 0; 0] <> Raised ValueError [].
Proof.
  refine (generate_ships_not_Raised (ShipFactory_init None None) [0; 0; 0; 0; 0] _ _
            ValueError []).
  - simpl. lia.
  - simpl. lia.
Defined.

Lemma range_empty a b : b <= a -> range a b = [].
Proof. intros H. unfold range. destruct (b - a) eqn:E; try done; lia. Qed.

Lemma range_cons a b : a < b -> range a b = a :: range (a + 1) b.
Proof.
  intros H. unfold range. replace (b - a) with (Z.succ (b - (a + 1))) by lia.
  rewrite seqZ_cons by lia. f_equal. f_equal. lia.
Qed.

Lemma place_fleet_nothing items width height ships t :
  (forall len count, (len, count) ∈ items -> count <= 0) ->
  place_fleet items width height ships t = Ok ships t.
Proof.
  induction items as [|[len count] items IH]; intros Hcounts; simpl; [done|].
  rewrite range_empty by (specialize (Hcounts len count ltac:(left)); lia).
  simpl. unfold bind, ret. apply IH.
  intros len' count' H. apply (Hcounts len' count'). by right.
Qed.

(** X14. When no entry of the mapping has a positive count,
    [generate_ships] returns the empty list without drawing anything,
    on any board. *)
Theorem generate_ships_nothing (f : ShipFactory) (t : tape)
    (Hcounts : forall len count, (len, count) ∈ ships_per_length f -> count <= 0) :
  generate_ships f t = Ok [] t.
Proof.
  unfold generate_ships. destruct (board_size f) as [width height].
  by apply place_fleet_nothing.
Qed.

Lemma generate_ships_nothing_witness :
  generate_ships factory_nothing [7; 7; 7] = Ok [] [7; 7; 7].
Proof.
  refine (generate_ships_nothing factory_nothing [7; 7; 7] _).
  intros len count Hin. simpl in Hin.
  repeat (apply elem_of_cons in Hin as [[= -> ->]|Hin]; [lia|]).
  by apply elem_of_nil in Hin.
Defined.

Lemma place_ship_loop_bad_board width height len ships t :
  (width < 1 -> place_ship_loop width height len ships t = Raised ValueError t)
  /\ (1 <= width -> height < 1 ->
       place_ship_loop width height len ships t
       = match t with
         | [] => OutOfDraws
         | _ :: t0 => Raised ValueError t0
         end).
Proof.
  unfold place_ship_loop. cbn [place_ship]. split.
  - intros Hw. unfold bind at 1. unfold randrange at 1. by rewrite decide_True by lia.
  - intros Hw Hh. unfold bind at 1. unfold randrange at 1.
    rewrite decide_False by lia. destruct t as [|r t0]; [done|].
    unfold bind at 1. unfold randrange at 1. by rewrite decide_True by lia.
Qed.

Lemma place_fleet_bad_board items width height ships t :
  (exists len count, (len, count) ∈ items /\ 1 <= count) ->
  (width < 1 -> place_fleet items width height ships t = Raised ValueError t)
  /\ (1 <= width -> height < 1 ->
       place_fleet items width height ships t
       = match t with
         | [] => OutOfDraws
         | _ :: t0 => Raised ValueError t0
         end).
Proof.
  induction items as [|[len count] items IH]; intros (l & c & Hin & Hc).
  { by apply elem_of_nil in Hin. }
  cbn [place_fleet]. destruct (decide (1 <= count)) as [Hpos|Hneg].
  - rewrite range_cons by lia. cbn [place_ships].
    destruct (place_ship_loop_bad_board width height len ships t) as [H1 H2].
    split.
    + intros Hw. unfold bind at 1. unfold bind at 1. by rewrite H1.
    + intros Hw Hh. unfold bind at 1. unfold bind at 1. rewrite H2 by done.
      by destruct t.
  - rewrite range_empty by lia. cbn [place_ships].
    assert (forall k : list Ship -> M tape (list Ship),
              bind (ret ships) k t = k ships t) as -> by done.
    apply IH. exists l, c. split; [|done].
    apply elem_of_cons in Hin as [[= -> ->]|Hin]; [lia|done].
Qed.

(** X15. When the mapping asks for at least one ship and the board has no
    column, [generate_ships] raises [ValueError] before drawing anything;
    when it has a column but no row, it raises [ValueError] after the
    first draw. *)
Theorem generate_ships_bad_board (f : ShipFactory) (t : tape)
    (Hreq : exists len count, (len, count) ∈ ships_per_length f /\ 1 <= count) :
  ((board_size f).1 < 1 -> generate_ships f t = Raised ValueError t)
  /\ (1 <= (board_size f).1 -> (board_size f).2 < 1 ->
       generate_ships f t
       = match t with
         | [] => OutOfDraws
         | _ :: t0 => Raised ValueError t0
         end).
Proof.
  unfold generate_ships. destruct (board_size f) as [width height].
  by apply place_fleet_bad_board.
Qed.

Lemma generate_ships_bad_board_witness :
  generate_ships factory_no_columns [7; 7; 7] = Raised ValueError [7; 7; 7].
Proof.
  refine (proj1 (generate_ships_bad_board factory_no_columns [7; 7; 7] _) _).
  - exists 2, 1. split; [|lia]. simpl. right. left.
  - simpl. lia.
Defined.

(** X16. For every mapping, the ships returned come in the order of the
    mapping, [max(count, 0)] of them for each entry, and a ship placed for
    the key [len] has [|len - 1| + 1] cells (so [len] cells when
    [len >= 1]). *)
Theorem generate_ships_lengths (f : ShipFactory) (t : tape) (ships : list Ship) (t' : tape)
    (Hret : generate_ships f t = Ok ships t') :
  Ship_length <$> ships
  = flat_map (fun item => replicate (Z.to_nat item.2) (Z.abs (item.1 - 1) + 1))
             (ships_per_length f).
Proof. by apply generate_ships_inv in Hret as [_ Hl]. Qed.

Lemma generate_ships_lengths_witness :
  Ship_length <$> [mkShip 1 1 2 1 {[ (1, 1); (2, 1) ]} ∅]
  = flat_map (fun item => replicate (Z.to_nat item.2) (Z.abs (item.1 - 1) + 1))
             (ships_per_length factory_length_0).
Proof.
  exact (generate_ships_lengths factory_length_0 [1; 0; 1] _ [] generate_length_0).
Defined.

Lemma place_ship_Forall (P : Ship -> Prop) fuel width height len ships t ships' t' :
  (forall start end_ s, Ship_init start end_ = inr s -> P s) ->
  Forall P ships ->
  place_ship fuel width height len ships t = Ok ships' t' ->
  Forall P ships'.
Proof.
  intros HP Hall H.
  apply place_ship_Ok in H as (new_ship & x & y & e & -> & Hnew & _).
  apply Forall_app. split; [done|]. apply Forall_singleton. by eapply HP.
Qed.

Lemma place_ships_Forall (P : Ship -> Prop) numbers width height len ships t ships' t' :
  (forall start end_ s, Ship_init start end_ = inr s -> P s) ->
  Forall P ships ->
  place_ships numbers width height len ships t = Ok ships' t' ->
  Forall P ships'.
Proof.
  intros HP. revert ships t.
  induction numbers as [|n numbers IH]; intros ships t Hall; simpl.
  - unfold ret. by intros [= <- _].
  - intros H. apply bind_Ok in H as (ships1 & t1 & H1 & H).
    apply (IH ships1 t1); [|done]. by eapply place_ship_Forall.
Qed.

Lemma place_fleet_Forall (P : Ship -> Prop) items width height ships t ships' t' :
  (forall start end_ s, Ship_init start end_ = inr s -> P s) ->
  Forall P ships ->
  place_fleet items width height ships t = Ok ships' t' ->
  Forall P ships'.
Proof.
  intros HP. revert ships t.
  induction items as [|[len count] items IH]; intros ships t Hall; simpl.
  - unfold ret. by intros [= <- _].
  - intros H. apply bind_Ok in H as (ships1 & t1 & H1 & H).
    apply (IH ships1 t1); [|done]. by eapply place_ships_Forall.
Qed.

(** X17. Every ship returned by [generate_ships] is a newly constructed
    one: it has no damaged cell and has not sunk. *)
Theorem generate_ships_new (f : ShipFactory) (t : tape) (ships : list Ship) (t' : tape)
    (s : Ship) (Hret : generate_ships f t = Ok ships t') (Hs : s ∈ ships) :
  constructed s /\ damaged_cells s = ∅ /\ count_damaged_cells s = 0 /\ has_sunk s = false.
Proof.
  unfold generate_ships in Hret. destruct (board_size f) as [width height].
  apply (place_fleet_Forall (fun s => exists start end_, Ship_init start end_ = inr s))
    in Hret; [|by eauto|by apply Forall_nil].
  rewrite Forall_forall in Hret. destruct (Hret s Hs) as (start & end_ & Hnew).
  split; [by eapply constructed_init|].
  destruct (receive_damages_sunk start end_ s [] Hnew) as [_ Hsunk].
  apply Ship_init_fields in Hnew as (_ & _ & _ & _ & _ & Hd).
  split; [done|]. split; [|done].
  unfold count_damaged_cells. by rewrite Hd, size_empty.
Qed.

Lemma generate_ships_new_witness :
  constructed (mkShip 8 8 8 10 {[ (8, 8); (8, 9); (8, 10) ]} ∅)
  /\ damaged_cells (mkShip 8 8 8 10 {[ (8, 8); (8, 9); (8, 10) ]} ∅) = ∅
  /\ count_damaged_cells (mkShip 8 8 8 10 {[ (8, 8); (8, 9); (8, 10) ]} ∅) = 0
  /\ has_sunk (mkShip 8 8 8 10 {[ (8, 8); (8, 9); (8, 10) ]} ∅) = false.
Proof.
  refine (generate_ships_new (ShipFactory_init None None) default_draws default_fleet []
            _ generate_default_fleet _).
  unfold default_fleet. do 2 right. left.
Defined.

Lemma reads_triples_ret {A} (a : A) : reads_triples 0 (ret a).
Proof.
  intros t b t'. unfold ret. intros [= <- <-]. exists [], 0%nat. by repeat split.
Qed.

Lemma reads_triples_bind {A B} lo lo' (m : M tape A) (k : A -> M tape B) :
  reads_triples lo m -> (forall a, reads_triples lo' (k a)) ->
  reads_triples (lo + lo') (bind m k).
Proof.
  intros Hm Hk t b t' H. apply bind_Ok in H as (a & t1 & H1 & H2).
  apply Hm in H1 as (u1 & k1 & -> & Hl1 & Hk1).
  apply Hk in H2 as (u2 & k2 & -> & Hl2 & Hk2).
  exists (u1 ++ u2), (k1 + k2)%nat. rewrite length_app.
  split; [by rewrite <- app_assoc|]. split; lia.
Qed.

Lemma randrange_reads a b t v t' : randrange a b t = Ok v t' -> exists r, t = r :: t'.
Proof.
  unfold randrange. case_decide; [discriminate|].
  destruct t as [|r t]; [discriminate|]. intros [= _ <-]. eauto.
Qed.

Lemma choice_reads {A} (seq : list A) t v t' :
  choice seq t = Ok v t' -> exists r, t = r :: t'.
Proof.
  unfold choice. destruct seq as [|d seq]; [discriminate|].
  destruct t as [|r t]; [discriminate|]. intros [= _ <-]. eauto.
Qed.

Lemma reads_triples_place_ship fuel width height len ships :
  reads_triples 1 (place_ship fuel width height len ships).
Proof.
  induction fuel as [|fuel IH]; intros t a t' H; [discriminate|].
  cbn [place_ship] in H.
  apply bind_Ok in H as (x & t1 & Hx & H).
  apply bind_Ok in H as (y & t2 & Hy & H).
  apply bind_Ok in H as (hz & t3 & Hh & H).
  apply randrange_reads in Hx as (rx & ->). apply randrange_reads in Hy as (ry & ->).
  apply choice_reads in Hh as (rc & ->).
  assert (forall b, ret (A:=list Ship) b t3 = Ok a t' ->
            exists used k, rx :: ry :: rc :: t3 = used ++ t'
                           /\ List.length used = (3 * k)%nat /\ (1 <= k)%nat) as Hdone.
  { intros b. unfold ret. intros [= _ <-]. exists [rx; ry; rc], 1%nat. by repeat split. }
  assert (place_ship fuel width height len ships t3 = Ok a t' ->
            exists used k, rx :: ry :: rc :: t3 = used ++ t'
                           /\ List.length used = (3 * k)%nat /\ (1 <= k)%nat) as Hrec.
  { intros Hr. apply IH in Hr as (used & k & -> & Hl & Hk).
    exists (rx :: ry :: rc :: used), (S k). simpl. repeat split; [lia|lia]. }
  cbv zeta in H. destruct (negb _); [by apply Hrec|].
  apply bind_Ok in H as (new_ship & t4 & Hnew & H).
  assert (t4 = t3) as ->.
  { destruct (Ship_init _ _); simpl in Hnew; [discriminate|].
    unfold ret in Hnew. by injection Hnew as _ <-. }
  destruct (negb _); [|by eapply Hdone].
  destruct (near_some_ship _ _); [by apply Hrec|by eapply Hdone].
Qed.

Lemma reads_triples_place_ships numbers width height len ships :
  reads_triples (List.length numbers) (place_ships numbers width height len ships).
Proof.
  revert ships. induction numbers as [|n numbers IH]; intros ships; simpl.
  - apply reads_triples_ret.
  - apply (reads_triples_bind 1 (List.length numbers)); [|apply IH].
    intros t a t'. unfold place_ship_loop. apply reads_triples_place_ship.
Qed.

Lemma reads_triples_place_fleet items width height ships :
  reads_triples (List.length (fleet_lengths items))
                (place_fleet items width height ships).
Proof.
  revert ships. induction items as [|[len count] items IH]; intros ships.
  - apply reads_triples_ret.
  - cbn [place_fleet]. unfold fleet_lengths. cbn [flat_map]. rewrite length_app.
    apply reads_triples_bind; [|apply IH].
    rewrite length_replicate. cbn [snd].
    replace (Z.to_nat count) with (List.length (range 1 (count + 1)))
      by (rewrite length_range; lia).
    apply reads_triples_place_ships.
Qed.

(** X19. When [generate_ships] returns, it has read a whole number of
    triples of draws (a start column, a start row, a direction) from the
    front of the tape, at least one triple for each ship of the fleet, and
    it returns the rest of the tape untouched. *)
Theorem generate_ships_reads_triples (f : ShipFactory) (t : tape) (ships : list Ship)
    (t' : tape) (Hret : generate_ships f t = Ok ships t') :
  exists used k,
    t = used ++ t' /\ List.length used = (3 * k)%nat /\ (List.length ships <= k)%nat.
Proof.
  pose proof (generate_ships_inv f t ships t' Hret) as [_ Hl].
  apply (f_equal List.length) in Hl. rewrite length_fmap in Hl. rewrite Hl.
  revert Hret. unfold generate_ships. destruct (board_size f) as [width height].
  apply reads_triples_place_fleet.
Qed.

Lemma generate_ships_reads_triples_witness :
  exists used k,
    default_draws = used ++ []
    /\ List.length used = (3 * k)%nat /\ (List.length default_fleet <= k)%nat.
Proof.
  exact (generate_ships_reads_triples (ShipFactory_init None None) default_draws
           default_fleet [] generate_default_fleet).
Defined.

(** * Further properties of [AutomaticPlayer] *)

(** What [strategy_function] returns: it changes the counter only, and a
    cell it returns is on the board. *)
Lemma strategy_function_result s :
  match strategy_function s with
  | Ok r s' => s' = set_cycle (cycle s') s /\ (forall c, r = Some c -> on_board s c = true)
  | Raised _ s' => s' = s
  | OutOfDraws => False
  end.
Proof.
  unfold strategy_function, or_else, bind, get, raise, ret.
  destruct (previous_coordinates s) as [[x y]|]; [|done].
  repeat probe_step; rewrite ?set_cycle_set_cycle, ?set_cycle_same;
    (split; [done|]); intros c [= <-]; done.
Qed.

Lemma get_random_coordinates_on_board s t c t' :
  get_random_coordinates s t = Ok c t' -> on_board s c = true.
Proof.
  unfold get_random_coordinates, randint. intros H.
  apply bind_Ok in H as (x & t1 & Hx & H). apply randrange_Ok in Hx.
  apply bind_Ok in H as (y & t2 & Hy & H). apply randrange_Ok in Hy.
  unfold ret in H. injection H as <- _. apply on_board_true. simpl. lia.
Qed.

Lemma redraw_on_board fuel s c t c' t' :
  on_board s c = true -> redraw fuel s c t = Ok c' t' -> on_board s c' = true.
Proof.
  revert c t. induction fuel as [|fuel IH]; intros c t Hc; simpl;
    case_bool_decide as Hin; try discriminate.
  - unfold ret. by intros [= <- _].
  - intros Hr. apply bind_Ok in Hr as (c1 & t1 & H1 & Hr).
    apply (IH c1 t1); [|done]. by eapply get_random_coordinates_on_board.
  - unfold ret. by intros [= <- _].
Qed.

Lemma random_target_on_board s t c t' :
  random_target s t = Ok c t' -> on_board s c = true.
Proof.
  unfold random_target. intros H. apply bind_Ok in H as (c1 & t1 & H1 & H).
  eapply redraw_on_board; [|done]. by eapply get_random_coordinates_on_board.
Qed.

(** What a call of [select_target] does to the player. *)
Lemma select_target_state t s :
  match select_target t s with
  | Ok target s' =>
      s' = record_target target (set_cycle (cycle s') s)
      /\ (forall c, target = Some c -> on_board s c = true)
  | Raised _ s' => s' = s
  | OutOfDraws => True
  end.
Proof.
  unfold select_target, bind, get, modify, ret, with_tape.
  destruct (implement_strategy s).
  - pose proof (strategy_function_result s) as H.
    destruct (strategy_function s) as [r s1|e s1|]; [|done|done].
    destruct H as [H1 H2]. split; [|done].
    remember (cycle s1) as k eqn:Hk. clear Hk. subst s1. reflexivity.
  - destruct (random_target s t) as [c t'|e t'|] eqn:Hr; [|done|done].
    split.
    + unfold record_target. by destruct s.
    + intros c' [= <-]. by eapply random_target_on_board.
Qed.

(** X20. When [select_target] returns, the target is appended to
    [attacked_positions] and becomes [previous_coordinates]; the board,
    the hunting flag and the anchor are unchanged. *)
Theorem select_target_records (t : tape) (s s' : AutomaticPlayer) (target : option cell)
    (Hret : select_target t s = Ok target s') :
  attacked_positions s' = attacked_positions s ++ [target]
  /\ previous_coordinates s' = target
  /\ board_width s' = board_width s /\ board_height s' = board_height s
  /\ implement_strategy s' = implement_strategy s
  /\ save_ship_initial s' = save_ship_initial s.
Proof.
  pose proof (select_target_state t s) as H. rewrite Hret in H.
  destruct H as [-> _]. by repeat split.
Qed.

Lemma select_target_records_witness :
  attacked_positions (mkAutomaticPlayer 10 10 true [Some (5, 5); Some (5, 6); Some (5, 7)]
                        (Some (5, 7)) 0 (Some (5, 5)))
  = attacked_positions after_second_hit ++ [Some (5, 7)].
Proof.
  refine (proj1 (select_target_records [] after_second_hit _ (Some (5, 7)) _)).
  vm_compute. reflexivity.
Defined.

(** X21. A cell returned by [select_target] is always on the board,
    whether it was drawn at random or is a probe of the hunt. *)
Theorem select_target_on_board (t : tape) (s s' : AutomaticPlayer) (c : cell)
    (Hret : select_target t s = Ok (Some c) s') :
  (1 <= c.1 <= board_width s) /\ (1 <= c.2 <= board_height s).
Proof.
  pose proof (select_target_state t s) as H. rewrite Hret in H.
  destruct H as [_ H]. specialize (H c eq_refl). apply on_board_true in H. lia.
Qed.

Lemma select_target_on_board_witness :
  (1 <= (5, 5).1 <= board_width (AutomaticPlayer_init 10 10))
  /\ (1 <= (5, 5).2 <= board_height (AutomaticPlayer_init 10 10)).
Proof.
  refine (select_target_on_board [4; 4] (AutomaticPlayer_init 10 10)
            (mkAutomaticPlayer 10 10 false [Some (5, 5)] (Some (5, 5)) 0 None) (5, 5) _).
  vm_compute. reflexivity.
Defined.

Lemma select_target_targets_attacked t s s' :
  targets_attacked s -> state_after (select_target t s) = Some s' -> targets_attacked s'.
Proof.
  intros [Hp Ha] H. pose proof (select_target_state t s) as Hst.
  destruct (select_target t s) as [target s1|e s1|]; simpl in H; [| |discriminate].
  - injection H as <-. destruct Hst as [-> _]. split; simpl.
    + intros p ->. apply elem_of_app. right. left.
    + intros a Hs. apply elem_of_app. left. by apply Ha.
  - injection H as <-. by subst s1.
Qed.

Lemma receive_result_targets_attacked hit sunk s s' :
  targets_attacked s -> state_after (receive_result hit sunk s) = Some s' ->
  targets_attacked s'.
Proof.
  intros [Hp Ha]. unfold receive_result, bind, get, modify, raise, ret.
  destruct hit, sunk; simpl;
    destruct (save_ship_initial s) as [[ax ay]|] eqn:Es,
             (previous_coordinates s) as [[px py]|] eqn:Ep,
             (implement_strategy s);
    simpl; repeat case_bool_decide; simpl; intros [= <-];
    split; simpl; rewrite ?Es, ?Ep; try done;
    intros q [= <-]; auto.
Qed.

(** X22. In every reachable state the last target and the anchor of the
    hunt, when there are any, are cells the player has attacked. *)
Theorem reachable_targets_attacked (s : AutomaticPlayer) (Hs : reachable s) :
  (forall p, previous_coordinates s = Some p -> Some p ∈ attacked_positions s)
  /\ (forall a, save_ship_initial s = Some a -> Some a ∈ attacked_positions s).
Proof.
  change (targets_attacked s).
  induction Hs as [w h|s t s' _ IH H|s hit sunk s' _ IH H].
  - split; simpl; discriminate.
  - by eapply select_target_targets_attacked.
  - by eapply receive_result_targets_attacked.
Qed.

Lemma reachable_targets_attacked_witness :
  (forall p, previous_coordinates after_second_hit = Some p ->
             Some p ∈ attacked_positions after_second_hit)
  /\ (forall a, save_ship_initial after_second_hit = Some a ->
                Some a ∈ attacked_positions after_second_hit).
Proof.
  exact (reachable_targets_attacked after_second_hit reachable_after_second_hit).
Defined.

(** X23. Once the counter is 4 the hunt is stuck: [select_target] matches
    no direction, returns [None] and records it as the last target; from
    then on every [select_target] raises [TypeError], and a reported miss
    or hit changes nothing, until a sunk ship is reported. *)
Theorem select_target_cycle_4 (s : AutomaticPlayer) (t : tape) (p a : cell)
    (Hhunt : implement_strategy s = true)
    (Hprev : previous_coordinates s = Some p)
    (Hanchor : save_ship_initial s = Some a)
    (Hcycle : cycle s = 4) :
  select_target t s = Ok None (record_target None s)
  /\ (forall t', select_target t' (record_target None s)
                 = Raised TypeError (record_target None s))
  /\ receive_result false false (record_target None s) = Ok tt (record_target None s)
  /\ receive_result true false (record_target None s) = Ok tt (record_target None s).
Proof.
  destruct s as [w h hunt att prev k anchor]. simpl in *. subst.
  destruct p as [x y]. repeat split.
Qed.

Lemma select_target_cycle_4_witness :
  select_target [] after_four_misses = Ok None (record_target None after_four_misses).
Proof.
  refine (proj1 (select_target_cycle_4 after_four_misses [] (5, 5) (5, 5) _ _ _ _));
    reflexivity.
Defined.

Lemma set_cycle_eq k s : cycle s = k -> set_cycle k s = s.
Proof. intros <-. apply set_cycle_same. Qed.

Lemma offset_directions x y :
  offset (x, y) 0 = (x, y + 1) /\ offset (x, y) 1 = (x + 1, y)
  /\ offset (x, y) 2 = (x, y - 1) /\ offset (x, y) 3 = (x - 1, y).
Proof. unfold offset, direction. simpl. rewrite !Z.add_0_r. done. Qed.

Lemma next_probe_unfold s x y :
  next_probe s (x, y)
  = if bool_decide (cycle s <= 0) && on_board s (x, y + 1) then Some 0
    else if bool_decide (cycle s <= 1) && on_board s (x + 1, y) then Some 1
    else if bool_decide (cycle s <= 2) && on_board s (x, y - 1) then Some 2
    else if bool_decide (cycle s <= 3) && on_board s (x - 1, y) then Some 3
    else None.
Proof.
  destruct (offset_directions x y) as (O0 & O1 & O2 & O3).
  unfold next_probe. cbn [List.find]. by rewrite O0, O1, O2, O3.
Qed.

(** One step of the evaluation of the cascade: a test on numbers is
    decided, a test against the board is split. *)
Ltac cascade_step :=
  match goal with
  | |- context [probe ?k ?c ?n ?st] => rewrite (probe_spec k c n st); simpl
  | |- context [on_board (set_cycle ?k ?s) ?c] => rewrite (on_board_set_cycle k s c)
  | |- context [bool_decide ?P] =>
      first [ rewrite (bool_decide_eq_true_2 P) by lia
            | rewrite (bool_decide_eq_false_2 P) by lia ]; simpl
  | |- context [on_board ?s ?c] => destruct (on_board s c); simpl
  end.

(** X24. While hunting with the counter in {0,1,2,3}, [select_target]
    tries the directions from the counter on, in the order north, east,
    south, west, and returns the first probe that is on the board, leaving
    the counter at that direction; when none is on the board it returns
    [None] and resets the counter to 0. Directions before the counter are
    not tried. *)
Theorem select_target_cascade (s : AutomaticPlayer) (t : tape) (p : cell)
    (Hhunt : implement_strategy s = true)
    (Hprev : previous_coordinates s = Some p)
    (Hcycle : 0 <= cycle s <= 3) :
  select_target t s
  = match next_probe s p with
    | Some j => Ok (Some (offset p j)) (record_target (Some (offset p j)) (set_cycle j s))
    | None => Ok None (record_target None (set_cycle 0 s))
    end.
Proof.
  destruct p as [x y]. rewrite next_probe_unfold.
  destruct (offset_directions x y) as (O0 & O1 & O2 & O3).
  unfold select_target, bind, get, modify, ret. rewrite Hhunt.
  unfold strategy_function, or_else, bind, get, raise, ret. rewrite Hprev.
  unfold record_target.
  assert (cycle s = 0 \/ cycle s = 1 \/ cycle s = 2 \/ cycle s = 3) as Hk by lia.
  clear Hcycle Hhunt Hprev.
  destruct Hk as [E|[E|[E|E]]];
    repeat cascade_step; rewrite ?O0, ?O1, ?O2, ?O3, ?E;
    first [ reflexivity | rewrite (set_cycle_eq _ s E); reflexivity ].
Qed.

Lemma select_target_cascade_witness :
  select_target [] (mkAutomaticPlayer 10 10 true [Some (10, 10)] (Some (10, 10)) 0
                      (Some (10, 10)))
  = Ok (Some (10, 9))
       (mkAutomaticPlayer 10 10 true [Some (10, 10); Some (10, 9)] (Some (10, 9)) 2
          (Some (10, 10))).
Proof.
  refine (select_target_cascade
            (mkAutomaticPlayer 10 10 true [Some (10, 10)] (Some (10, 10)) 0 (Some (10, 10)))
            [] (10, 10) _ _ _).
  - reflexivity.
  - reflexivity.
  - simpl. lia.
Defined.

Lemma get_random_coordinates_cases s t :
  1 <= board_width s -> 1 <= board_height s ->
  get_random_coordinates s t = OutOfDraws
  \/ exists c t', get_random_coordinates s t = Ok c t' /\ on_board s c = true.
Proof.
  intros Hw Hh.
  destruct (get_random_coordinates s t) as [c t'|e t'|] eqn:E; [right|exfalso|by left].
  - exists c, t'. split; [done|]. by eapply get_random_coordinates_on_board.
  - revert E. unfold get_random_coordinates, randint, bind, randrange, ret.
    rewrite !decide_False by lia.
    destruct t as [|rx [|ry t]]; simpl; rewrite ?decide_False by lia; discriminate.
Qed.

Lemma redraw_all_attacked fuel s c t :
  1 <= board_width s -> 1 <= board_height s ->
  (forall c', on_board s c' = true -> Some c' ∈ attacked_positions s) ->
  on_board s c = true ->
  redraw fuel s c t = OutOfDraws.
Proof.
  intros Hw Hh Hall. revert c t. induction fuel as [|fuel IH]; intros c t Hc; simpl;
    rewrite bool_decide_eq_true_2 by (by apply Hall); [done|].
  unfold bind. destruct (get_random_coordinates_cases s t Hw Hh) as [->|(c1 & t1 & -> & Hc1)];
    [done|]. by apply IH.
Qed.

(** X25. When every cell of the board has been attacked, [select_target]
    of a player that is not hunting never returns: whatever the draws, the
    redraw loop is still running when they are used up. *)
Theorem select_target_all_attacked (s : AutomaticPlayer) (t : tape)
    (Hidle : implement_strategy s = false)
    (Hw : 1 <= board_width s) (Hh : 1 <= board_height s)
    (Hall : forall c, on_board s c = true -> Some c ∈ attacked_positions s) :
  select_target t s = OutOfDraws.
Proof.
  unfold select_target, bind, get, with_tape. rewrite Hidle.
  assert (random_target s t = OutOfDraws) as ->; [|done].
  unfold random_target, bind.
  destruct (get_random_coordinates_cases s t Hw Hh) as [->|(c1 & t1 & -> & Hc1)]; [done|].
  by apply redraw_all_attacked.
Qed.

Lemma select_target_all_attacked_witness :
  select_target [3; 8; 0; 5] idle_1x1_attacked = OutOfDraws.
Proof.
  refine (select_target_all_attacked idle_1x1_attacked [3; 8; 0; 5] _ _ _ _).
  - reflexivity.
  - simpl. lia.
  - simpl. lia.
  - intros [x y] Hc. apply on_board_true in Hc. simpl in Hc.
    assert (x = 1) as -> by lia. assert (y = 1) as -> by lia. simpl. left.
Defined.

(** X26. A player that is not hunting can select every cell of the board
    it has not attacked yet: the draws [c.1 - 1] and [c.2 - 1] make
    [select_target] return the cell [c]. *)
Theorem select_target_any_free_cell (s : AutomaticPlayer) (c : cell)
    (Hidle : implement_strategy s = false)
    (Hboard : on_board s c = true)
    (Hfree : Some c ∉ attacked_positions s) :
  select_target [c.1 - 1; c.2 - 1] s = Ok (Some c) (record_target (Some c) s).
Proof.
  destruct c as [x y]. apply on_board_true in Hboard. simpl in Hboard. cbn [fst snd].
  unfold select_target, bind, get, modify, ret, with_tape. rewrite Hidle.
  assert (random_target s [x - 1; y - 1] = Ok (x, y) []) as ->; [|done].
  unfold random_target, get_random_coordinates, randint, bind, randrange, ret. simpl.
  rewrite !decide_False by lia.
  replace (board_width s + 1 - 1) with (board_width s) by lia.
  replace (board_height s + 1 - 1) with (board_height s) by lia.
  rewrite !Z.mod_small by lia.
  replace (1 + (x - 1)) with x by lia. replace (1 + (y - 1)) with y by lia.
  by rewrite bool_decide_eq_false_2.
Qed.

Lemma select_target_any_free_cell_witness :
  select_target [(7, 2).1 - 1; (7, 2).2 - 1] (AutomaticPlayer_init 10 10)
  = Ok (Some (7, 2)) (record_target (Some (7, 2)) (AutomaticPlayer_init 10 10)).
Proof.
  refine (select_target_any_free_cell (AutomaticPlayer_init 10 10) (7, 2) _ _ _).
  - reflexivity.
  - vm_compute. reflexivity.
  - simpl. apply not_elem_of_nil.
Defined.

Lemma select_target_None t s s' :
  select_target t s = Ok None s' -> implement_strategy s = true.
Proof.
  unfold select_target, bind, get, modify, ret, with_tape.
  destruct (implement_strategy s); [done|].
  destruct (random_target s t); discriminate.
Qed.

(** X30. In a game that calls [receive_result] after each [select_target]
    that returned, [receive_result] never raises: starting from a state
    where a hunting player has an anchor (a new player is such a state),
    the report of any result after a returned [select_target] returns and
    leads to such a state again. *)
Theorem receive_result_after_select_target (s s1 : AutomaticPlayer) (t : tape)
    (target : option cell) (hit sunk : bool)
    (Hinv : hunt_has_anchor s)
    (Hret : select_target t s = Ok target s1) :
  hunt_has_anchor (AutomaticPlayer_init (board_width s) (board_height s))
  /\ exists s2, receive_result hit sunk s1 = Ok tt s2 /\ hunt_has_anchor s2.
Proof.
  split; [intros H; discriminate H|].
  assert (target = None -> implement_strategy s = true) as Hnone.
  { intros ->. by eapply select_target_None. }
  pose proof (select_target_state t s) as Hst. rewrite Hret in Hst.
  destruct Hst as [Hs1 _]. clear Hret.
  remember (cycle s1) as k eqn:Hk. clear Hk. subst s1.
  unfold hunt_has_anchor in *.
  destruct s as [w h hunt att prev k0 anchor]. simpl in *.
  unfold receive_result, bind, get, modify, raise, ret. simpl.
  destruct hit, sunk; simpl.
  - eexists. split; [reflexivity|]. simpl. discriminate.
  - destruct anchor as [a|]; simpl.
    + eexists. split; [reflexivity|]. simpl. eauto.
    + destruct target as [c|]; simpl.
      * eexists. split; [reflexivity|]. simpl. eauto.
      * specialize (Hnone eq_refl). subst hunt. by destruct (Hinv eq_refl).
  - eexists. split; [reflexivity|]. simpl. discriminate.
  - destruct hunt; simpl.
    + destruct (Hinv eq_refl) as [a ->]. case_bool_decide; simpl.
      * eexists. split; [reflexivity|]. simpl. eauto.
      * eexists. split; [reflexivity|]. simpl. eauto.
    + eexists. split; [reflexivity|]. simpl. discriminate.
Qed.

Lemma receive_result_after_select_target_witness :
  hunt_has_anchor (AutomaticPlayer_init (board_width (AutomaticPlayer_init 10 10))
                     (board_height (AutomaticPlayer_init 10 10)))
  /\ exists s2,
       receive_result true false
         (mkAutomaticPlayer 10 10 false [Some (5, 5)] (Some (5, 5)) 0 None) = Ok tt s2
       /\ hunt_has_anchor s2.
Proof.
  refine (receive_result_after_select_target (AutomaticPlayer_init 10 10) _ [4; 4]
            (Some (5, 5)) true false _ _).
  - intros H. discriminate H.
  - vm_compute. reflexivity.
Defined.

(** * Properties of [RandomPlayer] *)

Lemma RandomPlayer_get_random_coordinates_Ok s t c t' :
  RandomPlayer_get_random_coordinates s t = Ok c t' ->
  (1 <= c.1 <= random_board_width s) /\ (1 <= c.2 <= random_board_height s).
Proof.
  unfold RandomPlayer_get_random_coordinates, randint. intros H.
  apply bind_Ok in H as (x & t1 & Hx & H). apply randrange_Ok in Hx.
  apply bind_Ok in H as (y & t2 & Hy & H). apply randrange_Ok in Hy.
  unfold ret in H. injection H as <- _. simpl. lia.
Qed.

Lemma generate_random_target_loop_Ok fuel s t c t' :
  generate_random_target_loop fuel s t = Ok c t' ->
  (1 <= c.1 <= random_board_width s) /\ (1 <= c.2 <= random_board_height s)
  /\ c ∉ tracker s.
Proof.
  revert t. induction fuel as [|fuel IH]; intros t; simpl; [discriminate|].
  intros H. apply bind_Ok in H as (c1 & t1 & H1 & H).
  case_bool_decide as Hin; [by eapply IH|].
  unfold ret in H. injection H as <- _.
  apply RandomPlayer_get_random_coordinates_Ok in H1. tauto.
Qed.

(** X27. A cell returned by [RandomPlayer.select_target] is on the board
    and was not in the tracker; the call adds it to the tracker, which
    grows by exactly that cell. *)
Theorem RandomPlayer_select_target_fresh (t : tape) (s s' : RandomPlayer) (c : cell)
    (Hret : RandomPlayer_select_target t s = Ok c s') :
  (1 <= c.1 <= random_board_width s) /\ (1 <= c.2 <= random_board_height s)
  /\ (c ∉ tracker s)
  /\ tracker s' = tracker s ∪ {[ c ]}
  /\ size (tracker s') = S (size (tracker s))
  /\ random_board_width s' = random_board_width s
  /\ random_board_height s' = random_board_height s.
Proof.
  revert Hret. unfold RandomPlayer_select_target, bind, get, modify, ret, on_tape.
  destruct (generate_random_target s t) as [c1 t1|e t1|] eqn:E; try discriminate.
  intros [= <- <-]. apply generate_random_target_loop_Ok in E as (Hx & Hy & Hfresh).
  simpl. repeat split; try lia; try done.
  rewrite size_union, size_singleton; [lia|]. by apply disjoint_singleton_r.
Qed.

Lemma RandomPlayer_select_target_fresh_witness :
  (1 <= (5, 6).1 <= random_board_width (RandomPlayer_init 10 10))
  /\ (1 <= (5, 6).2 <= random_board_height (RandomPlayer_init 10 10))
  /\ ((5, 6) ∉ tracker (RandomPlayer_init 10 10))
  /\ tracker (mkRandomPlayer 10 10 {[ (5, 6) ]}) = tracker (RandomPlayer_init 10 10) ∪ {[ (5, 6) ]}
  /\ size (tracker (mkRandomPlayer 10 10 {[ (5, 6) ]}))
     = S (size (tracker (RandomPlayer_init 10 10)))
  /\ random_board_width (mkRandomPlayer 10 10 {[ (5, 6) ]})
     = random_board_width (RandomPlayer_init 10 10)
  /\ random_board_height (mkRandomPlayer 10 10 {[ (5, 6) ]})
     = random_board_height (RandomPlayer_init 10 10).
Proof.
  refine (RandomPlayer_select_target_fresh [4; 5] (RandomPlayer_init 10 10)
            (mkRandomPlayer 10 10 {[ (5, 6) ]}) (5, 6) _).
  vm_compute. reflexivity.
Defined.

(** X28. A random player never attacks a cell twice: the targets of any
    sequence of [select_target] calls are pairwise distinct, none of them
    was in the tracker before, and the tracker afterwards holds exactly
    the old cells and the targets. *)
Theorem RandomPlayer_targets_distinct (ts : list tape) (s s' : RandomPlayer)
    (targets : list cell) (Hret : RandomPlayer_targets ts s = Some (targets, s')) :
  NoDup targets
  /\ (forall c, c ∈ targets -> c ∉ tracker s)
  /\ (forall c, c ∈ tracker s' <-> c ∈ tracker s \/ c ∈ targets).
Proof.
  revert s targets Hret. induction ts as [|t ts IH]; intros s targets; simpl.
  - intros [= <- <-]. split; [apply NoDup_nil_2|]. split.
    + intros c Hc. by apply elem_of_nil in Hc.
    + intros c. split; [tauto|]. intros [H|H]; [done|]. by apply elem_of_nil in H.
  - destruct (RandomPlayer_select_target t s) as [c s1|e s1|] eqn:E; try discriminate.
    destruct (RandomPlayer_targets ts s1) as [[cs s2]|] eqn:E2; try discriminate.
    intros [= <- <-].
    apply RandomPlayer_select_target_fresh in E as (_ & _ & Hfresh & Htr & _).
    destruct (IH s1 cs E2) as (Hnd & Hnew & Hfinal).
    assert (c ∉ cs) as Hc.
    { intros Hin. apply (Hnew c Hin). rewrite Htr. apply elem_of_union_r.
      by apply elem_of_singleton. }
    split; [by apply NoDup_cons|]. split.
    + intros x Hx. apply elem_of_cons in Hx as [->|Hx]; [done|].
      intros Hin. apply (Hnew x Hx). rewrite Htr. by apply elem_of_union_l.
    + intros x. rewrite Hfinal, Htr, elem_of_union, elem_of_singleton, elem_of_cons. tauto.
Qed.

Lemma RandomPlayer_targets_distinct_witness :
  NoDup [(5, 6); (5, 5)]
  /\ (forall c, c ∈ [(5, 6); (5, 5)] -> c ∉ tracker (RandomPlayer_init 10 10))
  /\ (forall c, c ∈ tracker (mkRandomPlayer 10 10 {[ (5, 6); (5, 5) ]})
                <-> c ∈ tracker (RandomPlayer_init 10 10) \/ c ∈ [(5, 6); (5, 5)]).
Proof.
  refine (RandomPlayer_targets_distinct [[4; 5]; [4; 5; 4; 4]] (RandomPlayer_init 10 10)
            (mkRandomPlayer 10 10 {[ (5, 6); (5, 5) ]}) [(5, 6); (5, 5)] _).
  vm_compute. reflexivity.
Defined.

Lemma RandomPlayer_get_random_coordinates_cases s t :
  1 <= random_board_width s -> 1 <= random_board_height s ->
  RandomPlayer_get_random_coordinates s t = OutOfDraws
  \/ exists c t', RandomPlayer_get_random_coordinates s t = Ok c t'
                  /\ (1 <= c.1 <= random_board_width s)
                  /\ (1 <= c.2 <= random_board_height s).
Proof.
  intros Hw Hh.
  destruct (RandomPlayer_get_random_coordinates s t) as [c t'|e t'|] eqn:E;
    [right|exfalso|by left].
  - exists c, t'. split; [done|]. by eapply RandomPlayer_get_random_coordinates_Ok.
  - revert E. unfold RandomPlayer_get_random_coordinates, randint, bind, randrange, ret.
    rewrite !decide_False by lia.
    destruct t as [|rx [|ry t]]; simpl; rewrite ?decide_False by lia; discriminate.
Qed.

(** X29. Once every cell of the board is in the tracker,
    [RandomPlayer.select_target] never returns: whatever the draws, the
    loop is still running when they are used up. *)
Theorem RandomPlayer_select_target_full (s : RandomPlayer) (t : tape)
    (Hw : 1 <= random_board_width s) (Hh : 1 <= random_board_height s)
    (Hall : forall c : cell,
        (1 <= c.1 <= random_board_width s) -> (1 <= c.2 <= random_board_height s) ->
        c ∈ tracker s) :
  RandomPlayer_select_target t s = OutOfDraws.
Proof.
  unfold RandomPlayer_select_target, bind, get, on_tape.
  assert (forall fuel t0, generate_random_target_loop fuel s t0 = OutOfDraws) as Hloop.
  { induction fuel as [|fuel IH]; intros t0; [done|]. simpl. unfold bind.
    destruct (RandomPlayer_get_random_coordinates_cases s t0 Hw Hh)
      as [->|(c & t1 & -> & Hx & Hy)]; [done|].
    rewrite bool_decide_eq_true_2 by (by apply Hall). apply IH. }
  unfold generate_random_target. by rewrite Hloop.
Qed.

Lemma RandomPlayer_select_target_full_witness :
  RandomPlayer_select_target [3; 8; 0; 5] (mkRandomPlayer 1 1 {[ (1, 1) ]}) = OutOfDraws.
Proof.
  refine (RandomPlayer_select_target_full (mkRandomPlayer 1 1 {[ (1, 1) ]}) [3; 8; 0; 5]
            _ _ _).
  - simpl. lia.
  - simpl. lia.
  - intros [x y] Hx Hy. simpl in *.
    assert (x = 1) as -> by lia. assert (y = 1) as -> by lia.
    by apply elem_of_singleton.
Defined.
